(** * Batched GEMV (cpp/src_prims/linalg/batched/gemv.h)

    A shallow embedding of the per-threadblock batched GEMV primitive:
    the register-level reducer [dotProduct], the kernel body [gemvKernel],
    the launcher [gemvImplY] and the two byte-alignment ladders
    [gemvImplAx] and [gemv].

    The SIMT execution of one threadblock is written lane by lane in a small
    state/error monad over a [World] that holds the four global buffers, the
    shared scratch slot and a trace of every memory access, barrier and
    launch.  The blocks of a grid run one after the other in an order that
    is a parameter of the model; index arithmetic of type [IdxT] is taken in
    [nat] (no overflow), the [size_t] byte count of the ladders in [N] with
    its 64-bit wrap-around written out.  [cub::BlockReduce] is taken at its
    interface. *)

From Stdlib Require Import List Arith NArith ZArith Lia Bool Permutation.
Import ListNotations.

Set Implicit Arguments.

(** ** The element type [DataT] *)

(** What the templates use of [DataT]: the constant [DataT(0.0)], [+]
    (through [+=]), [*] and [!=]. *)
Class Scalar (DataT : Type) : Type := {
  szero : DataT;
  sadd : DataT -> DataT -> DataT;
  smul : DataT -> DataT -> DataT;
  sneq : DataT -> DataT -> bool
}.

(** Exact arithmetic: the laws under which a sum does not depend on the way
    it is bracketed or ordered. *)
Class ScalarLaws (DataT : Type) {S : Scalar DataT} : Prop := {
  sadd_assoc : forall a b c : DataT, sadd a (sadd b c) = sadd (sadd a b) c;
  sadd_comm : forall a b : DataT, sadd a b = sadd b a;
  sadd_0_l : forall a : DataT, sadd szero a = a;
  smul_0_0 : smul (szero : DataT) szero = szero;
  sneq_false : forall a b : DataT, sneq a b = false <-> a = b
}.

(** ** Integer instance *)

(** The templates at an integer element type with exact arithmetic. *)
#[export] Instance Scalar_Z : Scalar Z := {
  szero := 0%Z;
  sadd := Z.add;
  smul := Z.mul;
  sneq := fun a b => negb (Z.eqb a b)
}.

#[export] Instance ScalarLaws_Z : @ScalarLaws Z Scalar_Z.
Proof.
  constructor; simpl; intros; lia.
Qed.

(** [Nop]: the default epilogue. *)
Definition Nop {DataT : Type} (v : DataT) (_ : nat) : DataT := v.

(** ** Byte counts and widths of the dispatch *)

(** [d * sizeof(DataT)] in [size_t]. *)
Definition size_t_mul (a b : nat) : N := ((N.of_nat a * N.of_nat b) mod 2 ^ 64)%N.

(** The template argument the ladder of [gemv] (on [n]) and of [gemvImplAx]
    (on [m]) passes on for a dimension [d]; [sizeofT] is [sizeof(DataT)]. *)
Definition selectVecLen (sizeofT d : nat) : nat :=
  let bytes := size_t_mul d sizeofT in
  if negb (16 / sizeofT =? 0) && (bytes mod 16 =? 0)%N then 16 / sizeofT
  else if negb (8 / sizeofT =? 0) && (bytes mod 8 =? 0)%N then 8 / sizeofT
  else if negb (4 / sizeofT =? 0) && (bytes mod 4 =? 0)%N then 4 / sizeofT
  else if negb (2 / sizeofT =? 0) && (bytes mod 2 =? 0)%N then 2 / sizeofT
  else if negb (1 / sizeofT =? 0) then 1 / sizeofT
  else 1.

Definition byteWidths : list nat := [16; 8; 4; 2; 1].

(** Modelled from the spec: the element sizes vectorized.h has accessors
    for, those with [L * sizeof(T)] one of 1, 2, 4, 8, 16 bytes for a width
    [L]. *)
Definition accessor_size (sizeofT : nat) : Prop := In sizeofT [1; 2; 4; 8; 16].

(** The rule in the words of the specification: the largest byte width that
    divides [d * sizeof(T)], as an element count. *)
Definition spec_VecLen (sizeofT d : nat) : nat :=
  match find (fun w => (d * sizeofT) mod w =? 0) byteWidths with
  | Some w => w / sizeofT
  | None => 0
  end.

(** The same rule over the widths that hold at least one element, and one
    element when there is none. *)
Definition guarded_VecLen (sizeofT d : nat) : nat :=
  match find (fun w => negb (w / sizeofT =? 0) && ((d * sizeofT) mod w =? 0)) byteWidths with
  | Some w => w / sizeofT
  | None => 1
  end.

(** ** Memory, events and faults *)

(** The four pointer arguments of the kernel. *)
Inductive Buf : Type := BufY | BufA | BufX | BufZ.

Definition Buf_eqb (p q : Buf) : bool :=
  match p, q with
  | BufY, BufY | BufA, BufA | BufX, BufX | BufZ, BufZ => true
  | _, _ => false
  end.

(** Global accesses count elements, shared accesses count bytes. *)
Inductive Event : Type :=
| EvLaunch (VecLenAx VecLenY grid block smemBytes : nat)
| EvLoad (blk tid : nat) (p : Buf) (off len : nat)
| EvStore (blk tid : nat) (p : Buf) (off len : nat)
| EvShRead (blk tid off len : nat)
| EvShWrite (blk tid off len : nat)
| EvBarrier (blk : nat).

Inductive Fault : Type :=
| OobGlobal      (* global access outside the buffer *)
| Misaligned     (* vectorized access at an offset that is no multiple of the width *)
| OobShared      (* shared access outside the dynamic allocation *)
| UninitShared   (* shared slot read before it was written *)
| OutOfFuel.     (* the row loop does not terminate *)

Inductive Result (R : Type) : Type :=
| Ok (r : R)
| Err (f : Fault).
Arguments Err {R} f.

Section Model.

Context {DataT : Type} {SC : Scalar DataT}.

Record World : Type := mkWorld {
  wY : list DataT;
  wA : list DataT;
  wX : list DataT;
  wZ : list DataT;
  wSlot : option DataT;       (* the scalar slot behind the reducer's temporary storage *)
  wTrace : list Event
}.

Definition getBuf (p : Buf) (w : World) : list DataT :=
  match p with
  | BufY => wY w
  | BufA => wA w
  | BufX => wX w
  | BufZ => wZ w
  end.

Definition setBuf (p : Buf) (v : list DataT) (w : World) : World :=
  match p with
  | BufY => mkWorld v (wA w) (wX w) (wZ w) (wSlot w) (wTrace w)
  | BufA => mkWorld (wY w) v (wX w) (wZ w) (wSlot w) (wTrace w)
  | BufX => mkWorld (wY w) (wA w) v (wZ w) (wSlot w) (wTrace w)
  | BufZ => mkWorld (wY w) (wA w) (wX w) v (wSlot w) (wTrace w)
  end.

Definition setSlot (s : option DataT) (w : World) : World :=
  mkWorld (wY w) (wA w) (wX w) (wZ w) s (wTrace w).

Definition log (evs : list Event) (w : World) : World :=
  mkWorld (wY w) (wA w) (wX w) (wZ w) (wSlot w) (wTrace w ++ evs).

(** ** The monad: state that survives a fault *)

Definition M (R : Type) : Type := World -> World * Result R.

Definition ret {R : Type} (r : R) : M R := fun w => (w, Ok r).

Definition fault {R : Type} (f : Fault) : M R := fun w => (w, Err f).

Definition bind {R S : Type} (c : M R) (k : R -> M S) : M S :=
  fun w =>
    match c w with
    | (w', Ok r) => k r w'
    | (w', Err f) => (w', Err f)
    end.

Definition emit (e : Event) : M unit := fun w => (log [e] w, Ok tt).

Notation "x <- c ;; k" := (bind c (fun x => k))
  (at level 61, c at next level, right associativity).
Notation "c ;;; k" := (bind c (fun _ => k))
  (at level 61, right associativity).

Fixpoint mapM {A R : Type} (f : A -> M R) (l : list A) : M (list R) :=
  match l with
  | [] => ret []
  | a :: l' => r <- f a ;; rs <- mapM f l' ;; ret (r :: rs)
  end.

(** ** Vectorized accessor *)

(** Modelled from the spec: [TxN_t<DataT, L>] of vectorized.h, which is not
    part of the reviewed unit.  [Ratio] is the lane width [L]; [fill] sets
    all [L] elements to one scalar; [load] and [store] move [L] contiguous
    elements at an element offset that the caller keeps a multiple of [L]
    and inside the buffer (anything else is a fault here). *)
Definition TxN_fill (L : nat) (v : DataT) : list DataT := repeat v L.

Definition TxN_load (L blk tid : nat) (p : Buf) (off : nat) : M (list DataT) :=
  fun w =>
    if negb (off mod L =? 0) then (w, Err Misaligned)
    else if off + L <=? length (getBuf p w)
    then (log [EvLoad blk tid p off L] w, Ok (firstn L (skipn off (getBuf p w))))
    else (w, Err OobGlobal).

Definition TxN_store (L blk tid : nat) (p : Buf) (off : nat) (v : list DataT) : M unit :=
  fun w =>
    if negb (off mod L =? 0) then (w, Err Misaligned)
    else if off + L <=? length (getBuf p w)
    then (log [EvStore blk tid p off L]
            (setBuf p (firstn off (getBuf p w) ++ firstn L v ++ skipn (off + L) (getBuf p w)) w),
          Ok tt)
    else (w, Err OobGlobal).

(** ** Shared scratch *)

(** [TPB]: threads per block.  [sizeofT]: [sizeof(DataT)].  [tempBytes]:
    [sizeof(cub::BlockReduce<DataT, TPB>::TempStorage)].  [undefLane]: what
    [BlockReduce::Sum] leaves in the lanes other than lane 0, which cub does
    not specify. *)
Variable TPB : nat.
Variable sizeofT : nat.
Variable tempBytes : nat.
Variable undefLane : nat -> list DataT -> DataT.
(** The blocks of a grid run in no defined order: [blockOrder g] lists the
    blocks of a grid of [g] blocks in the order of one run.  What is proved
    of a run assumes at most that every block of the grid runs once. *)
Variable blockOrder : nat -> list nat.

Definition forLanes {R : Type} (f : nat -> M R) : M (list R) := mapM f (seq 0 TPB).

(** A lane touches [len] bytes of the dynamic shared array at byte [off];
    [smemSize] is the size the launch gave the array. *)
Definition shRead (blk tid off len smemSize : nat) : M unit :=
  if off + len <=? smemSize then emit (EvShRead blk tid off len) else fault OobShared.

Definition sDot_write (blk tid smemSize : nat) (v : DataT) : M unit :=
  if tempBytes + sizeofT <=? smemSize
  then fun w => (log [EvShWrite blk tid tempBytes sizeofT] (setSlot (Some v) w), Ok tt)
  else fault OobShared.

Definition sDot_read (blk tid smemSize : nat) : M DataT :=
  if tempBytes + sizeofT <=? smemSize
  then fun w =>
         match wSlot w with
         | Some v => (log [EvShRead blk tid tempBytes sizeofT] w, Ok v)
         | None => (w, Err UninitShared)
         end
  else fault OobShared.

(** ** dotProduct *)

(** [cub::BlockReduce::Sum], taken at its interface: lane 0 receives the sum
    of the [TPB] inputs, the other lanes an unspecified value. *)
Definition BlockReduceSum (vals : list DataT) : list DataT :=
  map (fun tid => if tid =? 0 then fold_right sadd szero vals else undefLane tid vals)
      (seq 0 TPB).

(** The register loop of one lane: [val += x[i] * y[i]] for [i < VecLen],
    run only when [tid < len]. *)
Definition dotProduct_val (VecLen : nat) (x y : list DataT) (len tid : nat) : DataT :=
  let val := szero in
  if tid <? len
  then fold_left (fun v i => sadd v (smul (nth i x szero) (nth i y szero))) (seq 0 VecLen) val
  else val.

(** The whole block runs [dotProduct]: [x] and [y] give each lane's register
    arrays, the result lists each lane's return value. *)
Definition dotProduct (VecLen blk : nat) (x y : list (list DataT)) (len smemSize : nat)
    (broadcast : bool) : M (list DataT) :=
  let val := map (fun tid => dotProduct_val VecLen (nth tid x []) (nth tid y []) len tid)
                 (seq 0 TPB) in
  (* auto temp = *reinterpret_cast<BlockReduceSmem*>(smem) *)
  forLanes (fun tid => shRead blk tid 0 tempBytes smemSize) ;;;
  let dot := BlockReduceSum val in
  if broadcast then
    forLanes (fun tid =>
      if tid =? 0 then sDot_write blk tid smemSize (nth tid dot szero) else ret tt) ;;;
    emit (EvBarrier blk) ;;;
    forLanes (fun tid => sDot_read blk tid smemSize)
  else ret dot.

(** What each lane adds to the reduction, and their sum. *)
Definition laneContribs (VecLen : nat) (x y : list (list DataT)) (len : nat) : list DataT :=
  map (fun tid => dotProduct_val VecLen (nth tid x []) (nth tid y []) len tid) (seq 0 TPB).

Definition groupDot (VecLen : nat) (x y : list (list DataT)) (len : nat) : DataT :=
  fold_right sadd szero (laneContribs VecLen x y len).

(** ** gemvKernel *)

Section Kernel.

Variables VecLenAx VecLenY : nat.
Variable smemSize : nat.
Variable blk : nat.                    (* blockIdx.x *)
Variables y A x z : Buf.
Variables alpha beta : DataT.
Variables m n : nat.
Variable op : DataT -> nat -> DataT.   (* EpilogueOp *)

Definition idx (tid : nat) : nat := tid * VecLenAx.
Definition batchOffset : nat := blk * m * n.

(** [_x.fill(0); if (idx < n) _x.load(x, blockIdx.x * n + idx)] in every lane. *)
Definition load_x : M (list (list DataT)) :=
  forLanes (fun tid =>
    let _x := TxN_fill VecLenAx szero in
    if idx tid <? n then TxN_load VecLenAx blk tid x (blk * n + idx tid) else ret _x).

(** [_a.fill(0); if (idx < n) _a.load(A, batchOffset + (i + j) * n + idx)]. *)
Definition load_a (i j : nat) : M (list (list DataT)) :=
  forLanes (fun tid =>
    let _a := TxN_fill VecLenAx szero in
    if idx tid <? n then TxN_load VecLenAx blk tid A (batchOffset + (i + j) * n + idx tid)
    else ret _a).

(** The unrolled [j] loop of lines 89-97; the result holds, for each [j],
    the value of [_y.val.data[j]] in each lane. *)
Definition reduce_rows (i : nat) (_x : list (list DataT)) : M (list (list DataT)) :=
  mapM (fun j =>
    _a <- load_a i j ;;
    d <- dotProduct VecLenAx blk _a _x n smemSize false ;;
    emit (EvBarrier blk) ;;;
    ret d) (seq 0 VecLenY).

(** Lines 98-108 in every lane; only lane 0 passes the guard.  Each lane
    returns its [_z] register. *)
Definition write_rows (i : nat) (_y _z : list (list DataT)) : M (list (list DataT)) :=
  forLanes (fun tid =>
    if tid =? 0 then
      _z0 <- (if sneq beta szero then TxN_load VecLenY blk tid y (blk * m + i)
              else ret (nth tid _z [])) ;;
      let _y0 := map (fun j =>
         op (sadd (smul alpha (nth tid (nth j _y []) szero)) (smul beta (nth j _z0 szero)))
            (blk * m + i + j)) (seq 0 VecLenY) in
      TxN_store VecLenY blk tid y (blk * m + i) _y0 ;;;
      ret _z0
    else ret (nth tid _z [])).

(** [for (IdxT i = 0; i < m; i += VecTypeY::Ratio)]. *)
Fixpoint rowSweep (fuel i : nat) (_x _z : list (list DataT)) : M unit :=
  if i <? m then
    match fuel with
    | 0 => fault OutOfFuel
    | S fuel' =>
        _y <- reduce_rows i _x ;;
        _z' <- write_rows i _y _z ;;
        rowSweep fuel' (i + VecLenY) _x _z'
    end
  else ret tt.

#[using="All"]
Definition gemvKernel : M unit :=
  let _z := repeat (TxN_fill VecLenY szero) TPB in
  _x <- load_x ;;
  rowSweep m 0 _x _z.

End Kernel.

(** ** Launch and dispatch *)

(** Every block starts with an unwritten scratch slot. *)
Definition enterBlock : M unit := fun w => (setSlot None w, Ok tt).

(** [gemvKernel<<<batchSize, TPB, smemSize, stream>>>(y, A, x, z, ...)]. *)
Definition gemvImplY (VecLenAx VecLenY : nat) (y A x z : Buf) (alpha beta : DataT)
    (m n batchSize : nat) (op : DataT -> nat -> DataT) : M unit :=
  let smemSize := tempBytes in
  emit (EvLaunch VecLenAx VecLenY batchSize TPB smemSize) ;;;
  mapM (fun blk =>
    enterBlock ;;;
    gemvKernel VecLenAx VecLenY smemSize blk y A x z alpha beta m n op)
    (blockOrder batchSize) ;;;
  ret tt.

Definition gemvImplAx (VecLenAx : nat) (y A x z : Buf) (alpha beta : DataT)
    (m n batchSize : nat) (op : DataT -> nat -> DataT) : M unit :=
  let bytes := size_t_mul m sizeofT in
  if negb (16 / sizeofT =? 0) && (bytes mod 16 =? 0)%N then
    gemvImplY VecLenAx (16 / sizeofT) y A x z alpha beta m n batchSize op
  else if negb (8 / sizeofT =? 0) && (bytes mod 8 =? 0)%N then
    gemvImplY VecLenAx (8 / sizeofT) y A x z alpha beta m n batchSize op
  else if negb (4 / sizeofT =? 0) && (bytes mod 4 =? 0)%N then
    gemvImplY VecLenAx (4 / sizeofT) y A x z alpha beta m n batchSize op
  else if negb (2 / sizeofT =? 0) && (bytes mod 2 =? 0)%N then
    gemvImplY VecLenAx (2 / sizeofT) y A x z alpha beta m n batchSize op
  else if negb (1 / sizeofT =? 0) then
    gemvImplY VecLenAx (1 / sizeofT) y A x z alpha beta m n batchSize op
  else
    gemvImplY VecLenAx 1 y A x z alpha beta m n batchSize op.

Definition gemv (y A x z : Buf) (alpha beta : DataT)
    (m n batchSize : nat) (op : DataT -> nat -> DataT) : M unit :=
  let bytes := size_t_mul n sizeofT in
  if negb (16 / sizeofT =? 0) && (bytes mod 16 =? 0)%N then
    gemvImplAx (16 / sizeofT) y A x z alpha beta m n batchSize op
  else if negb (8 / sizeofT =? 0) && (bytes mod 8 =? 0)%N then
    gemvImplAx (8 / sizeofT) y A x z alpha beta m n batchSize op
  else if negb (4 / sizeofT =? 0) && (bytes mod 4 =? 0)%N then
    gemvImplAx (4 / sizeofT) y A x z alpha beta m n batchSize op
  else if negb (2 / sizeofT =? 0) && (bytes mod 2 =? 0)%N then
    gemvImplAx (2 / sizeofT) y A x z alpha beta m n batchSize op
  else if negb (1 / sizeofT =? 0) then
    gemvImplAx (1 / sizeofT) y A x z alpha beta m n batchSize op
  else
    gemvImplAx 1 y A x z alpha beta m n batchSize op.



(** ** Properties of runs *)

(** Every event a computation adds satisfies [P], and every fault it ends in
    satisfies [Q], whatever the world it starts from. *)
Definition sat {R : Type} (P : Event -> Prop) (Q : Fault -> Prop) (c : M R) : Prop :=
  forall w, exists evs,
    wTrace (fst (c w)) = wTrace w ++ evs /\ Forall P evs /\
    (forall f, snd (c w) = Err f -> Q f).

(** From every world that satisfies [I], the computation only adds the
    events [evs] and returns [r]. *)
Definition reads {R : Type} (I : World -> Prop) (c : M R) (evs : list Event) (r : R) : Prop :=
  forall w, I w -> c w = (log evs w, Ok r).

Definition stable (I : World -> Prop) : Prop := forall evs w, I w -> I (log evs w).

(** What block [blk] of the kernel may do, given its pointer arguments. *)
Definition kernel_event (blk : nat) (y A x : Buf) (e : Event) : Prop :=
  match e with
  | EvLaunch _ _ _ _ _ => False
  | EvLoad b tid p _ _ => b = blk /\ (p = x \/ p = A \/ (p = y /\ tid = 0))
  | EvStore b tid p _ _ => b = blk /\ p = y /\ tid = 0
  | EvShRead b _ off len => b = blk /\ off + len <= tempBytes
  | EvShWrite _ _ _ _ => False
  | EvBarrier b => b = blk
  end.

Definition grid_event (batchSize : nat) (y A x : Buf) (e : Event) : Prop :=
  exists blk, In blk (blockOrder batchSize) /\ kernel_event blk y A x e.

Definition global_fault (f : Fault) : Prop := f = OobGlobal \/ f = Misaligned.

Definition touches (p : Buf) (e : Event) : bool :=
  match e with
  | EvLoad _ _ q _ _ | EvStore _ _ q _ _ => Buf_eqb p q
  | _ => false
  end.

(** The element indices of buffer [p] that the trace stores to, in order. *)
Definition written (p : Buf) (tr : list Event) : list nat :=
  flat_map (fun e =>
    match e with
    | EvStore _ _ q off len => if Buf_eqb p q then seq off len else []
    | _ => []
    end) tr.

(** Where block [b] may go in the buffers of a launch with rows of [n]
    columns and [m] rows per block: loads of [A] stay inside one row below
    [m], loads of [x] inside [x_b], and lane 0 alone touches [y], inside
    [y_b]. *)
Definition slice_event (m n : nat) (e : Event) : Prop :=
  match e with
  | EvLoad b tid BufA off len =>
      exists r, r < m /\ b * m * n + r * n <= off /\ off + len <= b * m * n + r * n + n
  | EvLoad b tid BufX off len => b * n <= off /\ off + len <= b * n + n
  | EvLoad b tid BufY off len => tid = 0 /\ b * m <= off /\ off + len <= b * m + m
  | EvLoad _ _ BufZ _ _ => False
  | EvStore b tid p off len => p = BufY /\ tid = 0 /\ b * m <= off /\ off + len <= b * m + m
  | EvShRead _ _ _ _ | EvBarrier _ => True
  | EvShWrite _ _ _ _ | EvLaunch _ _ _ _ _ => False
  end.

(** A store is done by lane 0, to [y], inside the slice of its block. *)
Definition lane0_store_in_slice (m batchSize : nat) (e : Event) : Prop :=
  match e with
  | EvStore b tid p off len =>
      tid = 0 /\ p = BufY /\ b < batchSize /\ b * m <= off /\ off + len <= b * m + m
  | _ => True
  end.

(** A shared access stays inside the reducer's temporary storage. *)
Definition within_temp (e : Event) : Prop :=
  match e with
  | EvShRead _ _ off len => off + len <= tempBytes
  | EvShWrite _ _ _ _ => False
  | _ => True
  end.

Definition is_launch (e : Event) : bool :=
  match e with
  | EvLaunch _ _ _ _ _ => true
  | _ => false
  end.

(** ** Basic facts *)

Lemma log_nil (w : World) : log [] w = w.
Proof. destruct w; unfold log; simpl. now rewrite app_nil_r. Qed.

Lemma log_log (e1 e2 : list Event) (w : World) : log e2 (log e1 w) = log (e1 ++ e2) w.
Proof. unfold log; simpl. now rewrite app_assoc. Qed.

Lemma log_setBuf (p : Buf) (v : list DataT) (evs : list Event) (w : World) :
  log evs (setBuf p v w) = setBuf p v (log evs w).
Proof. now destruct p. Qed.

(** *** Composition of [sat] *)

Lemma sat_ret {R : Type} (P : Event -> Prop) (Q : Fault -> Prop) (r : R) : sat P Q (ret r).
Proof.
  intros w. exists []. simpl. rewrite app_nil_r. repeat split; auto. discriminate.
Qed.

Lemma sat_fault {R : Type} (P : Event -> Prop) (Q : Fault -> Prop) (f : Fault) :
  Q f -> sat P Q (@fault R f).
Proof.
  intros HQ w. exists []. simpl. rewrite app_nil_r. repeat split; auto.
  intros f' E. now inversion E; subst.
Qed.

Lemma sat_emit (P : Event -> Prop) (Q : Fault -> Prop) (e : Event) : P e -> sat P Q (emit e).
Proof.
  intros HP w. exists [e]. simpl. repeat split; auto. discriminate.
Qed.

Lemma sat_bind {R S : Type} (P : Event -> Prop) (Q : Fault -> Prop) (c : M R) (k : R -> M S) :
  sat P Q c -> (forall r, sat P Q (k r)) -> sat P Q (bind c k).
Proof.
  intros Hc Hk w. unfold bind.
  destruct (Hc w) as (e1 & T1 & F1 & E1).
  destruct (c w) as [w1 [r|f]]; simpl in *.
  - destruct (Hk r w1) as (e2 & T2 & F2 & E2).
    exists (e1 ++ e2). rewrite T2, T1, app_assoc. split; [reflexivity|]. split; [|assumption].
    apply Forall_app. now split.
  - exists e1. split; [assumption|]. split; [assumption|].
    intros f' E. inversion E; subst. now apply E1.
Qed.

Lemma sat_mapM {A R : Type} (P : Event -> Prop) (Q : Fault -> Prop) (f : A -> M R) (l : list A) :
  (forall a, In a l -> sat P Q (f a)) -> sat P Q (mapM f l).
Proof.
  induction l as [|a l IH]; intros H; simpl.
  - apply sat_ret.
  - apply sat_bind; [apply H; now left|]. intros r.
    apply sat_bind; [apply IH; intros; apply H; now right|]. intros rs. apply sat_ret.
Qed.

Lemma sat_weaken {R : Type} (P P' : Event -> Prop) (Q Q' : Fault -> Prop) (c : M R) :
  (forall e, P e -> P' e) -> (forall f, Q f -> Q' f) -> sat P Q c -> sat P' Q' c.
Proof.
  intros HP HQ H w. destruct (H w) as (evs & T & F & E).
  exists evs. repeat split; auto. eapply Forall_impl; eauto.
Qed.

Lemma sat_if {R : Type} (P : Event -> Prop) (Q : Fault -> Prop) (b : bool) (c d : M R) :
  sat P Q c -> sat P Q d -> sat P Q (if b then c else d).
Proof. now destruct b. Qed.

(** *** Composition of [reads] *)

Lemma reads_ret {R : Type} (I : World -> Prop) (r : R) : reads I (ret r) [] r.
Proof. intros w _. unfold ret. now rewrite log_nil. Qed.

Lemma reads_emit (I : World -> Prop) (e : Event) : reads I (emit e) [e] tt.
Proof. now intros w _. Qed.

Lemma reads_bind {R S : Type} (I : World -> Prop) (c : M R) (k : R -> M S)
    (e1 e2 : list Event) (r : R) (s : S) :
  stable I -> reads I c e1 r -> reads I (k r) e2 s -> reads I (bind c k) (e1 ++ e2) s.
Proof.
  intros HI Hc Hk w Hw. unfold bind. rewrite (Hc w Hw).
  rewrite (Hk (log e1 w) (HI _ _ Hw)). now rewrite log_log.
Qed.

Lemma reads_mapM {A R : Type} (I : World -> Prop) (f : A -> M R)
    (ev : A -> list Event) (g : A -> R) (l : list A) :
  stable I -> (forall a, In a l -> reads I (f a) (ev a) (g a)) ->
  reads I (mapM f l) (flat_map ev l) (map g l).
Proof.
  intros HI. induction l as [|a l IH]; intros H; simpl.
  - apply reads_ret.
  - eapply reads_bind; [assumption | apply H; now left |].
    rewrite <- (app_nil_r (flat_map ev l)).
    eapply reads_bind; [assumption | apply IH; intros; apply H; now right |].
    apply reads_ret.
Qed.

(** *** What the primitives add to the trace *)

Lemma sat_TxN_load (P : Event -> Prop) (Q : Fault -> Prop) (L blk tid : nat) (p : Buf) (off : nat) :
  P (EvLoad blk tid p off L) -> Q OobGlobal -> Q Misaligned ->
  sat P Q (TxN_load L blk tid p off).
Proof.
  intros HP HO HM w. unfold TxN_load.
  destruct (negb (off mod L =? 0)); [|destruct (off + L <=? length (getBuf p w))]; simpl.
  - exists []. rewrite app_nil_r. repeat split; auto. intros f E. now inversion E; subst.
  - exists [EvLoad blk tid p off L]. repeat split; auto. discriminate.
  - exists []. rewrite app_nil_r. repeat split; auto. intros f E. now inversion E; subst.
Qed.

Lemma sat_TxN_store (P : Event -> Prop) (Q : Fault -> Prop) (L blk tid : nat) (p : Buf)
    (off : nat) (v : list DataT) :
  P (EvStore blk tid p off L) -> Q OobGlobal -> Q Misaligned ->
  sat P Q (TxN_store L blk tid p off v).
Proof.
  intros HP HO HM w. unfold TxN_store.
  destruct (negb (off mod L =? 0)); [|destruct (off + L <=? length (getBuf p w))]; simpl.
  - exists []. rewrite app_nil_r. repeat split; auto. intros f E. now inversion E; subst.
  - exists [EvStore blk tid p off L]. destruct p; simpl; repeat split; auto; discriminate.
  - exists []. rewrite app_nil_r. repeat split; auto. intros f E. now inversion E; subst.
Qed.

Lemma sat_shRead (P : Event -> Prop) (Q : Fault -> Prop) (blk tid off len smemSize : nat) :
  (off + len <= smemSize -> P (EvShRead blk tid off len)) ->
  (smemSize < off + len -> Q OobShared) ->
  sat P Q (shRead blk tid off len smemSize).
Proof.
  intros HP HQ. unfold shRead. destruct (Nat.leb_spec (off + len) smemSize).
  - apply sat_emit; auto.
  - apply sat_fault; auto.
Qed.

Lemma sat_enterBlock (P : Event -> Prop) (Q : Fault -> Prop) : sat P Q enterBlock.
Proof.
  intros w. exists []. simpl. rewrite app_nil_r. repeat split; auto. discriminate.
Qed.

(** Without broadcast the reducer touches the temporary storage and nothing
    else of the shared array. *)
Lemma sat_dotProduct_false (P : Event -> Prop) (Q : Fault -> Prop) (VecLen blk : nat)
    (x y : list (list DataT)) (len smemSize : nat) :
  (forall tid, tid < TPB -> P (EvShRead blk tid 0 tempBytes)) ->
  (smemSize < tempBytes -> Q OobShared) ->
  sat P Q (dotProduct VecLen blk x y len smemSize false).
Proof.
  intros HP HQ. unfold dotProduct.
  apply sat_bind; [|intros; apply sat_ret].
  apply sat_mapM. intros tid Hin. apply in_seq in Hin.
  apply sat_shRead; intros; [apply HP; lia | apply HQ; lia].
Qed.

Section KernelTrace.

Variables VecLenAx VecLenY smemSize blk : nat.
Variables y A x z : Buf.
Variables alpha beta : DataT.
Variables m n : nat.
Variable op : DataT -> nat -> DataT.
Variable Q : Fault -> Prop.
Hypothesis Q_oob : Q OobGlobal.
Hypothesis Q_mis : Q Misaligned.
Hypothesis smem_enough : tempBytes <= smemSize.

Let P := kernel_event blk y A x.

Lemma sat_load_x : sat P Q (load_x VecLenAx blk x n).
Proof.
  apply sat_mapM. intros tid _. apply sat_if; [|apply sat_ret].
  apply sat_TxN_load; auto. simpl; auto.
Qed.

Lemma sat_load_a (i j : nat) : sat P Q (load_a VecLenAx blk A m n i j).
Proof.
  apply sat_mapM. intros tid _. apply sat_if; [|apply sat_ret].
  apply sat_TxN_load; auto. simpl; auto.
Qed.

Lemma sat_reduce_rows (i : nat) (_x : list (list DataT)) :
  sat P Q (reduce_rows VecLenAx VecLenY smemSize blk A m n i _x).
Proof.
  apply sat_mapM. intros j _.
  apply sat_bind; [apply sat_load_a|]. intros _a.
  apply sat_bind.
  - apply sat_dotProduct_false; [intros; simpl; split; [reflexivity | lia] | lia].
  - intros d. apply sat_bind; [apply sat_emit; reflexivity | intros; apply sat_ret].
Qed.

Lemma sat_write_rows (i : nat) (_y _z : list (list DataT)) :
  sat P Q (write_rows VecLenY blk y alpha beta m op i _y _z).
Proof.
  apply sat_mapM. intros tid _.
  destruct (Nat.eqb_spec tid 0) as [->|]; [|apply sat_ret].
  apply sat_bind.
  - apply sat_if; [|apply sat_ret]. apply sat_TxN_load; auto. simpl; auto.
  - intros _z0. apply sat_bind; [|intros; apply sat_ret].
    apply sat_TxN_store; auto. simpl; auto.
Qed.

Lemma sat_rowSweep (fuel i : nat) (_x _z : list (list DataT)) :
  Q OutOfFuel \/ (1 <= VecLenY /\ m <= i + fuel) ->
  sat P Q (rowSweep VecLenAx VecLenY smemSize blk y A alpha beta m n op fuel i _x _z).
Proof.
  revert i _z. induction fuel as [|fuel IH]; intros i _z Hf; simpl.
  - destruct (Nat.ltb_spec i m); [|apply sat_ret].
    apply sat_fault. destruct Hf as [|[? ?]]; [assumption | lia].
  - destruct (Nat.ltb_spec i m); [|apply sat_ret].
    apply sat_bind; [apply sat_reduce_rows|]. intros _y.
    apply sat_bind; [apply sat_write_rows|]. intros _z'.
    apply IH. destruct Hf as [|[? ?]]; [now left | right; lia].
Qed.

Lemma sat_gemvKernel :
  Q OutOfFuel \/ 1 <= VecLenY ->
  sat P Q (gemvKernel VecLenAx VecLenY smemSize blk y A x z alpha beta m n op).
Proof.
  intros Hf. unfold gemvKernel.
  apply sat_bind; [apply sat_load_x|]. intros _x.
  apply sat_rowSweep. destruct Hf; [now left | right; lia].
Qed.

End KernelTrace.

(** The launch is the first event of [gemvImplY]; everything after it is an
    event of one of the blocks that run. *)
Lemma gemvImplY_trace (Q : Fault -> Prop) (VecLenAx VecLenY : nat) (y A x z : Buf)
    (alpha beta : DataT) (m n batchSize : nat) (op : DataT -> nat -> DataT) (w : World) :
  Q OobGlobal -> Q Misaligned -> Q OutOfFuel \/ 1 <= VecLenY ->
  exists evs,
    wTrace (fst (gemvImplY VecLenAx VecLenY y A x z alpha beta m n batchSize op w)) =
      wTrace w ++ EvLaunch VecLenAx VecLenY batchSize TPB tempBytes :: evs /\
    Forall (grid_event batchSize y A x) evs /\
    (forall f, snd (gemvImplY VecLenAx VecLenY y A x z alpha beta m n batchSize op w) = Err f -> Q f).
Proof.
  intros HO HM HF. unfold gemvImplY.
  set (body := mapM _ _).
  assert (Hb : sat (grid_event batchSize y A x) Q body).
  { apply sat_mapM. intros blk Hin.
    apply sat_bind; [apply sat_enterBlock|]. intros _.
    eapply sat_weaken; [| |apply sat_gemvKernel with (Q := Q)]; auto.
    intros e He. exists blk. split; [exact Hin | exact He]. }
  assert (Hb2 : sat (grid_event batchSize y A x) Q (body ;;; ret tt)).
  { apply sat_bind; [exact Hb | intros; apply sat_ret]. }
  unfold bind at 1. unfold emit.
  destruct (Hb2 (log [EvLaunch VecLenAx VecLenY batchSize TPB tempBytes] w))
    as (evs & T & F & E).
  exists evs. rewrite T. simpl. rewrite <- app_assoc. simpl. auto.
Qed.

(** *** The ladders *)

Lemma size_t_mod (d s k : nat) :
  (N.of_nat k * (2 ^ 64 / N.of_nat k) = 2 ^ 64)%N -> k <> 0 ->
  (size_t_mul d s mod N.of_nat k =? 0)%N = ((d * s) mod k =? 0).
Proof.
  intros Hk Hk0. unfold size_t_mul.
  assert (E : ((N.of_nat d * N.of_nat s) mod 2 ^ 64 mod N.of_nat k
               = N.of_nat ((d * s) mod k))%N).
  { rewrite Nat2N.inj_mod, Nat2N.inj_mul, <- Hk, N.Div0.mod_mul_r.
    now rewrite (N.mul_comm (N.of_nat k)), N.Div0.mod_add, N.Div0.mod_mod. }
  rewrite E.
  destruct (Nat.eqb_spec ((d * s) mod k) 0), (N.eqb_spec (N.of_nat ((d * s) mod k)) 0);
    try reflexivity; lia.
Qed.

(** The 64-bit wrap-around of the byte count does not change the choice. *)
Lemma selectVecLen_unwrapped (s d : nat) :
  selectVecLen s d =
  if negb (16 / s =? 0) && ((d * s) mod 16 =? 0) then 16 / s
  else if negb (8 / s =? 0) && ((d * s) mod 8 =? 0) then 8 / s
  else if negb (4 / s =? 0) && ((d * s) mod 4 =? 0) then 4 / s
  else if negb (2 / s =? 0) && ((d * s) mod 2 =? 0) then 2 / s
  else if negb (1 / s =? 0) then 1 / s
  else 1.
Proof.
  unfold selectVecLen.
  rewrite <- (size_t_mod d s (k := 16)), <- (size_t_mod d s (k := 8)),
          <- (size_t_mod d s (k := 4)), <- (size_t_mod d s (k := 2));
    try reflexivity; discriminate.
Qed.

Lemma selectVecLen_guarded (s d : nat) : selectVecLen s d = guarded_VecLen s d.
Proof.
  rewrite selectVecLen_unwrapped. unfold guarded_VecLen, byteWidths, find.
  rewrite (Nat.mod_1_r (d * s)). simpl (0 =? 0). rewrite andb_true_r.
  repeat match goal with
         | |- context [if ?c then _ else _] => destruct c; try reflexivity
         end.
Qed.

Lemma selectVecLen_pos (s d : nat) : 1 <= selectVecLen s d.
Proof.
  rewrite selectVecLen_unwrapped.
  destruct (Nat.eqb_spec (16 / s) 0), (Nat.eqb_spec (8 / s) 0), (Nat.eqb_spec (4 / s) 0),
    (Nat.eqb_spec (2 / s) 0), (Nat.eqb_spec (1 / s) 0); simpl;
    repeat match goal with
           | |- context [if ?c then _ else _] => destruct c
           end; lia.
Qed.

Ltac close_divide :=
  match goal with
  | H : (?d * ?s) mod ?w = 0 |- Nat.divide ?k ?d =>
      apply Nat.Lcm0.mod_divide;
      pose proof (Nat.div_mod_eq (d * s) w);
      pose proof (Nat.div_mod_eq d k);
      pose proof (Nat.mod_upper_bound d k);
      lia
  | |- Nat.divide 1 _ => apply Nat.divide_1_l
  end.

(** For every element size but 3 and 5 bytes the selected width divides the
    dimension. *)
Lemma selectVecLen_divides (s d : nat) :
  1 <= s -> s <> 3 -> s <> 5 -> Nat.divide (selectVecLen s d) d.
Proof.
  intros H1 H3 H5. rewrite selectVecLen_unwrapped.
  destruct (le_lt_dec s 16) as [Hs|Hs].
  - assert (E : s = 1 \/ s = 2 \/ s = 4 \/ s = 6 \/ s = 7 \/ s = 8 \/ s = 9 \/ s = 10 \/
                s = 11 \/ s = 12 \/ s = 13 \/ s = 14 \/ s = 15 \/ s = 16) by lia.
    repeat (destruct E as [E|E]); subst s;
      repeat match goal with
             | |- context [?a / ?b] =>
                 let v := eval vm_compute in (a / b) in change (a / b) with v
             end;
      simpl negb; cbv beta iota; rewrite ?andb_true_l, ?andb_false_l;
      repeat match goal with
             | |- context [?a mod ?b =? 0] => destruct (Nat.eqb_spec (a mod b) 0)
             end;
      close_divide.
  - rewrite !Nat.div_small by lia. simpl. apply Nat.divide_1_l.
Qed.

(** Both ladders end in one call of [gemvImplY]. *)
Lemma gemvImplAx_select (VecLenAx : nat) (y A x z : Buf) (alpha beta : DataT)
    (m n batchSize : nat) (op : DataT -> nat -> DataT) :
  gemvImplAx VecLenAx y A x z alpha beta m n batchSize op =
  gemvImplY VecLenAx (selectVecLen sizeofT m) y A x z alpha beta m n batchSize op.
Proof.
  unfold gemvImplAx, selectVecLen.
  repeat match goal with
         | |- context [if ?c then _ else _] => destruct c; try reflexivity
         end.
Qed.

Lemma gemv_select (y A x z : Buf) (alpha beta : DataT)
    (m n batchSize : nat) (op : DataT -> nat -> DataT) :
  gemv y A x z alpha beta m n batchSize op =
  gemvImplY (selectVecLen sizeofT n) (selectVecLen sizeofT m) y A x z alpha beta m n batchSize op.
Proof.
  unfold gemv. rewrite !gemvImplAx_select.
  generalize (selectVecLen sizeofT m). intros vy. unfold selectVecLen.
  repeat match goal with
         | |- context [if ?c then _ else _] => destruct c; try reflexivity
         end.
Qed.

(** *** Lists *)

Lemma nth_map_seq {R : Type} (f : nat -> R) (k len : nat) (d : R) :
  k < len -> nth k (map f (seq 0 len)) d = f k.
Proof.
  intros H. rewrite (nth_indep _ d (f 0)) by now rewrite length_map, length_seq.
  rewrite (map_nth f (seq 0 len) 0 k). now rewrite seq_nth.
Qed.

Lemma map_seq_shift {R : Type} (f : nat -> R) (i len : nat) :
  map f (seq i len) = map (fun j => f (i + j)) (seq 0 len).
Proof.
  revert f. induction i as [|i IH]; intros f; [reflexivity|].
  now rewrite <- seq_shift, map_map, IH.
Qed.

Lemma seq_lane0 (k : nat) : 1 <= k -> seq 0 k = 0 :: seq 1 (k - 1).
Proof. destruct k; [lia|]. intros _. simpl. now rewrite Nat.sub_0_r. Qed.

Lemma flat_map_nil {R S : Type} (l : list R) : flat_map (fun _ => @nil S) l = [].
Proof. induction l; simpl; auto. Qed.

Lemma nth_chunk (L off : nat) (buf : list DataT) (i : nat) :
  i < L -> nth i (firstn L (skipn off buf)) szero = nth (off + i) buf szero.
Proof.
  intros H. rewrite nth_firstn. destruct (Nat.ltb_spec i L); [|lia]. apply nth_skipn.
Qed.

Lemma setBuf_same (p : Buf) (w : World) : setBuf p (getBuf p w) w = w.
Proof. now destruct p, w. Qed.

(** *** The reducer without broadcast *)

Lemma dotProduct_false_reads (I : World -> Prop) (VecLen blk : nat)
    (x y : list (list DataT)) (len smemSize : nat) :
  stable I -> tempBytes <= smemSize ->
  reads I (dotProduct VecLen blk x y len smemSize false)
    (flat_map (fun tid => [EvShRead blk tid 0 tempBytes]) (seq 0 TPB))
    (BlockReduceSum
       (map (fun tid => dotProduct_val VecLen (nth tid x []) (nth tid y []) len tid)
            (seq 0 TPB))).
Proof.
  intros HI Hs. unfold dotProduct.
  rewrite <- (app_nil_r (flat_map _ _)).
  eapply reads_bind; [assumption | | apply reads_ret].
  apply reads_mapM with (g := fun _ => tt); [assumption|].
  intros tid _. unfold shRead.
  destruct (Nat.leb_spec (0 + tempBytes) smemSize); [apply reads_emit | lia].
Qed.

(** Only lane 0 acts: the other lanes return without touching the world. *)
Lemma forLanes_lane0 {R : Type} (f : nat -> M R) (g : nat -> R) (w w1 : World) (r : R) :
  1 <= TPB -> f 0 w = (w1, Ok r) ->
  (forall tid, 1 <= tid < TPB -> forall w', f tid w' = (w', Ok (g tid))) ->
  forLanes f w = (w1, Ok (r :: map g (seq 1 (TPB - 1)))).
Proof.
  intros HT H0 Hrest. unfold forLanes. rewrite (seq_lane0 HT). cbn [mapM].
  unfold bind at 1. rewrite H0.
  assert (E : mapM f (seq 1 (TPB - 1)) w1 = (w1, Ok (map g (seq 1 (TPB - 1))))).
  { rewrite <- (log_nil w1) at 2.
    rewrite <- (flat_map_nil (S := Event) (seq 1 (TPB - 1))).
    apply (@reads_mapM _ _ (fun _ => True)); [now intros ? ? ?| |exact I].
    intros tid Ht. apply in_seq in Ht. intros w' _. rewrite log_nil. apply Hrest. lia. }
  unfold bind. now rewrite E.
Qed.

(** *** Sums in exact arithmetic *)

Section Sums.

Context {LAWS : @ScalarLaws DataT SC}.

Lemma sadd_0_r (a : DataT) : sadd a szero = a.
Proof. now rewrite sadd_comm, sadd_0_l. Qed.

Lemma sum_app (l1 l2 : list DataT) :
  fold_right sadd szero (l1 ++ l2)
  = sadd (fold_right sadd szero l1) (fold_right sadd szero l2).
Proof.
  induction l1 as [|a l1 IH]; simpl.
  - now rewrite sadd_0_l.
  - now rewrite IH, sadd_assoc.
Qed.

Lemma sum_zero (l : list DataT) :
  (forall a, In a l -> a = szero) -> fold_right sadd szero l = szero.
Proof.
  induction l as [|a l IH]; intros H; simpl; [reflexivity|].
  rewrite IH by (intros; apply H; now right).
  rewrite (H a) by now left. apply sadd_0_l.
Qed.

(** The accumulation loop [val += f i] adds the sum of the terms. *)
Lemma accumulate_sum (f : nat -> DataT) (l : list nat) (a : DataT) :
  fold_left (fun v i => sadd v (f i)) l a = sadd a (fold_right sadd szero (map f l)).
Proof.
  revert a. induction l as [|i l IH]; intros a; simpl.
  - now rewrite sadd_0_r.
  - now rewrite IH, sadd_assoc.
Qed.

(** [q] consecutive chunks of [L] terms sum to the first [q * L] terms. *)
Lemma sum_chunks (f : nat -> DataT) (L q : nat) :
  fold_right sadd szero
    (map (fun t => fold_right sadd szero (map (fun i => f (t * L + i)) (seq 0 L))) (seq 0 q))
  = fold_right sadd szero (map f (seq 0 (q * L))).
Proof.
  induction q as [|q IH].
  - reflexivity.
  - rewrite seq_S, map_app, sum_app, IH. simpl.
    replace (L + q * L) with (q * L + L) by lia.
    rewrite seq_app, map_app, sum_app, sadd_0_r. simpl.
    f_equal. now rewrite (map_seq_shift f).
Qed.

(** Any order of the lanes gives the same block sum. *)
Lemma sum_permutation (l1 l2 : list DataT) :
  Permutation l1 l2 -> fold_right sadd szero l1 = fold_right sadd szero l2.
Proof.
  induction 1; simpl; try congruence.
  now rewrite !sadd_assoc, (sadd_comm y x).
Qed.

End Sums.

(** *** The reducer with broadcast *)

Lemma dotProduct_true_run (VecLen blk : nat) (x y : list (list DataT)) (len smemSize : nat)
    (w : World) :
  1 <= TPB -> tempBytes + sizeofT <= smemSize ->
  dotProduct VecLen blk x y len smemSize true w
  = (log (flat_map (fun tid => [EvShRead blk tid 0 tempBytes]) (seq 0 TPB)
          ++ [EvShWrite blk 0 tempBytes sizeofT; EvBarrier blk]
          ++ flat_map (fun tid => [EvShRead blk tid tempBytes sizeofT]) (seq 0 TPB))
       (setSlot (Some (groupDot VecLen x y len)) w),
     Ok (map (fun _ => groupDot VecLen x y len) (seq 0 TPB))).
Proof.
  intros HT Hs. unfold dotProduct.
  assert (R1 : reads (fun _ => True)
                 (forLanes (fun tid => shRead blk tid 0 tempBytes smemSize))
                 (flat_map (fun tid => [EvShRead blk tid 0 tempBytes]) (seq 0 TPB))
                 (map (fun _ => tt) (seq 0 TPB))).
  { apply reads_mapM; [now intros ? ? ?|]. intros tid _. unfold shRead.
    destruct (Nat.leb_spec (0 + tempBytes) smemSize); [apply reads_emit | lia]. }
  unfold bind at 1. rewrite (R1 w I).
  unfold bind at 1.
  erewrite forLanes_lane0 with (g := fun _ => tt); [| assumption | | ].
  2:{ cbn [Nat.eqb]. unfold sDot_write.
      destruct (Nat.leb_spec (tempBytes + sizeofT) smemSize); [reflexivity | lia]. }
  2:{ intros tid Ht w'. destruct (Nat.eqb_spec tid 0); [lia | reflexivity]. }
  unfold bind, emit.
  assert (R2 : reads (fun w' => wSlot w' = Some (groupDot VecLen x y len))
                 (forLanes (fun tid => sDot_read blk tid smemSize))
                 (flat_map (fun tid => [EvShRead blk tid tempBytes sizeofT]) (seq 0 TPB))
                 (map (fun _ => groupDot VecLen x y len) (seq 0 TPB))).
  { apply reads_mapM; [now intros ? ? ?|]. intros tid _ w' Hw'. unfold sDot_read.
    destruct (Nat.leb_spec (tempBytes + sizeofT) smemSize); [|lia]. now rewrite Hw'. }
  assert (E : nth 0 (BlockReduceSum (map (fun tid =>
                 dotProduct_val VecLen (nth tid x []) (nth tid y []) len tid) (seq 0 TPB)))
                 szero = groupDot VecLen x y len).
  { unfold BlockReduceSum. now rewrite nth_map_seq by lia. }
  rewrite E, R2 by reflexivity.
  destruct w; unfold log, setSlot; simpl. now rewrite <- !app_assoc.
Qed.

(** ** A launch on well-sized buffers *)

Section Exec.

Variables VecLenAx VecLenY : nat.
Variables alpha beta : DataT.
Variables m n batchSize : nat.
Variable op : DataT -> nat -> DataT.
(** The contents of [A] and [x], which no block changes. *)
Variables A0 X0 : list DataT.

(** What lane [tid] of block [b] holds in [_x], and in [_a] for row [r]. *)
Definition xChunk (b tid : nat) : list DataT :=
  if tid * VecLenAx <? n then firstn VecLenAx (skipn (b * n + tid * VecLenAx) X0)
  else TxN_fill VecLenAx szero.

Definition aChunk (b r tid : nat) : list DataT :=
  if tid * VecLenAx <? n
  then firstn VecLenAx (skipn (b * m * n + r * n + tid * VecLenAx) A0)
  else TxN_fill VecLenAx szero.

(** The values the lanes of block [b] hand to the block reduction for row
    [r], and what lane 0 gets back. *)
Definition laneVals (b r : nat) : list DataT :=
  map (fun tid => dotProduct_val VecLenAx (aChunk b r tid) (xChunk b tid) n tid) (seq 0 TPB).

Definition rowDot (b r : nat) : DataT := fold_right sadd szero (laneVals b r).

(** Row [r] of [A_b] times [x_b], column by column. *)
Definition rowTimesX (b r : nat) : DataT :=
  fold_right sadd szero
    (map (fun c => smul (nth (b * m * n + r * n + c) A0 szero) (nth (b * n + c) X0 szero))
         (seq 0 n)).

(** The events of block [b], phase by phase. *)
Definition evLoadX (b : nat) : list Event :=
  flat_map (fun tid =>
    if tid * VecLenAx <? n then [EvLoad b tid BufX (b * n + tid * VecLenAx) VecLenAx] else [])
    (seq 0 TPB).

Definition evLoadA (b r : nat) : list Event :=
  flat_map (fun tid =>
    if tid * VecLenAx <? n
    then [EvLoad b tid BufA (b * m * n + r * n + tid * VecLenAx) VecLenAx] else [])
    (seq 0 TPB).

Definition evDot (b : nat) : list Event :=
  flat_map (fun tid => [EvShRead b tid 0 tempBytes]) (seq 0 TPB).

Definition evReduce (b i : nat) : list Event :=
  flat_map (fun j => evLoadA b (i + j) ++ evDot b ++ [EvBarrier b]) (seq 0 VecLenY).

Definition evWrite (b i : nat) : list Event :=
  (if sneq beta szero then [EvLoad b 0 BufY (b * m + i) VecLenY] else [])
  ++ [EvStore b 0 BufY (b * m + i) VecLenY].

Definition evBlock (b : nat) : list Event :=
  evLoadX b
  ++ flat_map (fun k => evReduce b (k * VecLenY) ++ evWrite b (k * VecLenY))
       (seq 0 (m / VecLenY)).

Definition evGrid : list Event :=
  EvLaunch VecLenAx VecLenY batchSize TPB tempBytes
  :: flat_map evBlock (blockOrder batchSize).

(** The buffers hold [Y], [A0] and [X0]; [z] and the scratch slot are free. *)
Definition holds (Y : list DataT) (w : World) : Prop :=
  wY w = Y /\ wA w = A0 /\ wX w = X0.

Hypothesis VecLenAx_divides : Nat.divide VecLenAx n.
Hypothesis VecLenY_divides : Nat.divide VecLenY m.
Hypothesis lanes : 1 <= TPB.
Hypothesis A_size : batchSize * m * n <= length A0.
Hypothesis X_size : batchSize * n <= length X0.

Lemma holds_stable (Y : list DataT) : stable (holds Y).
Proof. intros evs w H. exact H. Qed.

Lemma chunk_fits (tid : nat) : tid * VecLenAx < n -> tid * VecLenAx + VecLenAx <= n.
Proof.
  destruct VecLenAx_divides as [q ->]. intros H.
  assert (tid < q) by nia. nia.
Qed.

Lemma rows_exact : m = m / VecLenY * VecLenY.
Proof.
  destruct VecLenY_divides as [q Hq]. destruct VecLenY as [|v].
  - rewrite Hq. simpl. lia.
  - rewrite Hq at 1. now rewrite Hq, Nat.div_mul by lia.
Qed.

Lemma load_x_reads (Y : list DataT) (b : nat) :
  b < batchSize ->
  reads (holds Y) (load_x VecLenAx b BufX n) (evLoadX b) (map (xChunk b) (seq 0 TPB)).
Proof.
  intros Hb. unfold load_x, forLanes, evLoadX.
  apply reads_mapM; [apply holds_stable|]. intros tid _.
  unfold xChunk, idx. destruct (Nat.ltb_spec (tid * VecLenAx) n) as [Hlt|]; [|apply reads_ret].
  intros w (_ & _ & HX). unfold TxN_load. simpl getBuf. rewrite HX.
  pose proof (chunk_fits tid Hlt).
  assert (E : (b * n + tid * VecLenAx) mod VecLenAx = 0).
  { apply Nat.Lcm0.mod_divide, Nat.divide_add_r;
      [now apply Nat.divide_mul_r | apply Nat.divide_factor_r]. }
  rewrite E. simpl.
  destruct (Nat.leb_spec (b * n + tid * VecLenAx + VecLenAx) (length X0)); [reflexivity | nia].
Qed.

Lemma load_a_reads (Y : list DataT) (b i j : nat) :
  b < batchSize -> i + j < m ->
  reads (holds Y) (load_a VecLenAx b BufA m n i j) (evLoadA b (i + j))
    (map (aChunk b (i + j)) (seq 0 TPB)).
Proof.
  intros Hb Hr. unfold load_a, forLanes, evLoadA.
  apply reads_mapM; [apply holds_stable|]. intros tid _.
  unfold aChunk, idx, batchOffset.
  destruct (Nat.ltb_spec (tid * VecLenAx) n) as [Hlt|]; [|apply reads_ret].
  intros w (_ & HA & _). unfold TxN_load. simpl getBuf. rewrite HA.
  pose proof (chunk_fits tid Hlt).
  assert (E : (b * m * n + (i + j) * n + tid * VecLenAx) mod VecLenAx = 0).
  { apply Nat.Lcm0.mod_divide. repeat apply Nat.divide_add_r;
      try (now apply Nat.divide_mul_r); apply Nat.divide_factor_r. }
  rewrite E. simpl.
  destruct (Nat.leb_spec (b * m * n + (i + j) * n + tid * VecLenAx + VecLenAx) (length A0));
    [reflexivity|].
  assert (b * m * n + (i + j) * n + n <= batchSize * m * n); [|lia].
  assert ((i + j) * n + n <= m * n) by nia.
  assert (b * (m * n) + m * n <= batchSize * (m * n)) by nia. lia.
Qed.

Lemma reduce_rows_reads (Y : list DataT) (b i : nat) :
  b < batchSize -> i + VecLenY <= m ->
  reads (holds Y)
    (reduce_rows VecLenAx VecLenY tempBytes b BufA m n i (map (xChunk b) (seq 0 TPB)))
    (evReduce b i)
    (map (fun j => BlockReduceSum (laneVals b (i + j))) (seq 0 VecLenY)).
Proof.
  intros Hb Hi. unfold reduce_rows, evReduce.
  apply reads_mapM; [apply holds_stable|]. intros j Hj. apply in_seq in Hj.
  eapply reads_bind; [apply holds_stable | apply load_a_reads; [assumption | lia] |].
  eapply reads_bind; [apply holds_stable | apply dotProduct_false_reads;
    [apply holds_stable | lia] |].
  assert (E : map (fun tid => dotProduct_val VecLenAx
                      (nth tid (map (aChunk b (i + j)) (seq 0 TPB)) [])
                      (nth tid (map (xChunk b) (seq 0 TPB)) []) n tid) (seq 0 TPB)
              = laneVals b (i + j)).
  { apply map_ext_in. intros tid Ht. apply in_seq in Ht.
    now rewrite !nth_map_seq by lia. }
  rewrite E. now intros w _.
Qed.

(** *** One block *)

Section Block.

(** The content of [y] when the block starts. *)
Variable Y0 : list DataT.
Hypothesis Y_size : batchSize * m <= length Y0.

(** The operand scaled by [beta]: the previous content of [y], or zero. *)
Definition betaOperand (k : nat) : DataT :=
  if sneq beta szero then nth k Y0 szero else szero.

Definition outVal (b r : nat) : DataT :=
  op (sadd (smul alpha (rowDot b r)) (smul beta (betaOperand (b * m + r)))) (b * m + r).

(** [y] once the rows before [i] of block [b] are written. *)
Definition Yafter (b i : nat) : list DataT :=
  firstn (b * m) Y0 ++ map (outVal b) (seq 0 i) ++ skipn (b * m + i) Y0.

Definition Ydone (b i : nat) : list DataT :=
  firstn (b * m) Y0 ++ map (outVal b) (seq 0 i).

Lemma Ydone_length (b i : nat) : b < batchSize -> length (Ydone b i) = b * m + i.
Proof.
  intros Hb. unfold Ydone. rewrite length_app, length_map, length_seq, length_firstn. nia.
Qed.

Lemma Yafter_Ydone (b i : nat) : Yafter b i = Ydone b i ++ skipn (b * m + i) Y0.
Proof. unfold Yafter, Ydone. now rewrite app_assoc. Qed.

Lemma Yafter_start (b : nat) : Yafter b 0 = Y0.
Proof. unfold Yafter. simpl. rewrite Nat.add_0_r. apply firstn_skipn. Qed.

Lemma Yafter_length (b i : nat) :
  b < batchSize -> b * m + i <= length Y0 -> length (Yafter b i) = length Y0.
Proof.
  intros Hb H. rewrite Yafter_Ydone, length_app, Ydone_length, length_skipn by assumption. lia.
Qed.

Lemma Yafter_chunk (b i : nat) :
  b < batchSize -> skipn (b * m + i) (Yafter b i) = skipn (b * m + i) Y0.
Proof.
  intros Hb. rewrite Yafter_Ydone, skipn_app, Ydone_length, Nat.sub_diag by assumption.
  rewrite skipn_all2 by (rewrite Ydone_length by assumption; lia). reflexivity.
Qed.

Lemma Yafter_store (b i L : nat) :
  b < batchSize ->
  firstn (b * m + i) (Yafter b i) ++ map (outVal b) (seq i L)
    ++ skipn (b * m + i + L) (Yafter b i)
  = Yafter b (i + L).
Proof.
  intros Hb. rewrite (Yafter_Ydone b i).
  rewrite firstn_app, Ydone_length, Nat.sub_diag, firstn_O, app_nil_r by assumption.
  rewrite firstn_all2 by (rewrite Ydone_length by assumption; lia).
  rewrite skipn_app, Ydone_length by assumption.
  rewrite skipn_all2 by (rewrite Ydone_length by assumption; lia).
  replace (b * m + i + L - (b * m + i)) with L by lia.
  rewrite skipn_skipn. simpl.
  unfold Yafter, Ydone. rewrite seq_app, map_app, <- !app_assoc. simpl.
  do 4 f_equal. lia.
Qed.

(** *** One row step *)

(** Lane 0 keeps an all-zero [_z] as long as [beta] is zero. *)
Definition z_clean (_z : list (list DataT)) : Prop :=
  sneq beta szero = false -> nth 0 _z [] = TxN_fill VecLenY szero.

Lemma write_rows_step (b i : nat) (_z : list (list DataT)) (w : World) :
  b < batchSize -> Nat.divide VecLenY i -> i + VecLenY <= m ->
  z_clean _z -> holds (Yafter b i) w ->
  exists _z',
    write_rows VecLenY b BufY alpha beta m op i
      (map (fun j => BlockReduceSum (laneVals b (i + j))) (seq 0 VecLenY)) _z w
    = (log (evWrite b i) (setBuf BufY (Yafter b (i + VecLenY)) w), Ok _z')
    /\ z_clean _z'.
Proof.
  intros Hb Hdiv Hi Hz (HY & HA & HX).
  assert (Hbm : b * m + m <= batchSize * m) by nia.
  assert (Hal : (b * m + i) mod VecLenY = 0).
  { apply Nat.Lcm0.mod_divide, Nat.divide_add_r; [now apply Nat.divide_mul_r | assumption]. }
  assert (Hlen : length (Yafter b i) = length Y0) by (apply Yafter_length; [assumption | lia]).
  (* the values lane 0 stores *)
  assert (Hout : forall _z0,
      (forall j, j < VecLenY -> nth j _z0 szero = betaOperand (b * m + i + j)) ->
      map (fun j =>
             op (sadd (smul alpha
                   (nth 0 (nth j (map (fun j => BlockReduceSum (laneVals b (i + j)))
                                   (seq 0 VecLenY)) []) szero))
                   (smul beta (nth j _z0 szero))) (b * m + i + j)) (seq 0 VecLenY)
      = map (outVal b) (seq i VecLenY)).
  { intros _z0 Hz0. rewrite (map_seq_shift (outVal b)). apply map_ext_in.
    intros j Hj. apply in_seq in Hj. unfold outVal.
    rewrite nth_map_seq by lia. unfold BlockReduceSum. rewrite nth_map_seq by lia.
    simpl. rewrite Hz0 by lia. unfold rowDot. now rewrite Nat.add_assoc. }
  unfold write_rows, evWrite, betaOperand in *.
  destruct (sneq beta szero) eqn:Hbeta.
  - eexists. split; [|unfold z_clean; rewrite Hbeta; discriminate].
    apply forLanes_lane0 with (g := fun tid => nth tid _z []); [assumption | |].
    + cbn [Nat.eqb]. unfold bind, TxN_load, TxN_store. simpl getBuf.
      rewrite HY, Hal, Hlen. simpl.
      destruct (Nat.leb_spec (b * m + i + VecLenY) (length Y0)); [|lia].
      unfold log. simpl. rewrite HY, Hlen.
      destruct (Nat.leb_spec (b * m + i + VecLenY) (length Y0)); [|lia].
      simpl. rewrite Hout.
      * rewrite (@firstn_all2 _ VecLenY (map _ _)) by (rewrite length_map, length_seq; lia).
        rewrite Yafter_store by assumption. unfold ret. now rewrite <- app_assoc.
      * intros j Hj. rewrite Yafter_chunk by assumption. rewrite nth_chunk by lia. reflexivity.
    + intros tid Ht w'. destruct (Nat.eqb_spec tid 0); [lia | reflexivity].
  - eexists. split.
    + apply forLanes_lane0 with (g := fun tid => nth tid _z []); [assumption | |].
      * cbn [Nat.eqb]. unfold bind, ret, TxN_store. simpl getBuf.
        rewrite HY, Hal, Hlen. simpl.
        destruct (Nat.leb_spec (b * m + i + VecLenY) (length Y0)); [|lia].
        rewrite Hout.
        -- rewrite (@firstn_all2 _ VecLenY (map _ _)) by (rewrite length_map, length_seq; lia).
           rewrite Yafter_store by assumption. reflexivity.
        -- intros j Hj. rewrite (Hz Hbeta). unfold TxN_fill. apply nth_repeat.
      * intros tid Ht w'. destruct (Nat.eqb_spec tid 0); [lia | reflexivity].
    + intros _. simpl. exact (Hz Hbeta).
Qed.

(** *** The row sweep and the block *)

Lemma rowSweep_run (b cnt : nat) :
  b < batchSize ->
  forall (k fuel : nat) (_z : list (list DataT)) (w : World),
    k + cnt = m / VecLenY -> cnt <= fuel -> z_clean _z ->
    holds (Yafter b (k * VecLenY)) w ->
    rowSweep VecLenAx VecLenY tempBytes b BufY BufA alpha beta m n op fuel (k * VecLenY)
      (map (xChunk b) (seq 0 TPB)) _z w
    = (log (flat_map (fun k' => evReduce b (k' * VecLenY) ++ evWrite b (k' * VecLenY))
              (seq k cnt))
         (setBuf BufY (Yafter b m) w), Ok tt).
Proof.
  intros Hb. pose proof rows_exact as Hm.
  induction cnt as [|cnt IH]; intros k fuel _z w Hk Hfuel Hz Hw.
  - assert (E : k * VecLenY = m) by (rewrite Nat.add_0_r in Hk; now rewrite Hk).
    rewrite E in *. simpl flat_map. rewrite log_nil.
    destruct Hw as (HY & _). rewrite <- HY. change (wY w) with (getBuf BufY w).
    rewrite setBuf_same.
    destruct fuel; simpl; now rewrite Nat.ltb_irrefl.
  - destruct fuel as [|fuel]; [lia|].
    assert (Hlt : k * VecLenY + VecLenY <= m) by (rewrite Hm; nia).
    assert (Hpos : 1 <= VecLenY).
    { destruct VecLenY; [|lia]. rewrite Nat.add_succ_r in Hk. discriminate. }
    simpl rowSweep. destruct (Nat.ltb_spec (k * VecLenY) m); [|lia].
    unfold bind at 1.
    rewrite (@reduce_rows_reads _ b (k * VecLenY) Hb Hlt w Hw).
    destruct (@write_rows_step b (k * VecLenY) _z (log (evReduce b (k * VecLenY)) w))
      as (_z' & Hstep & Hz');
      [assumption | apply Nat.divide_factor_r | assumption | assumption
      | now apply holds_stable |].
    unfold bind at 1. rewrite Hstep.
    replace (k * VecLenY + VecLenY) with (S k * VecLenY) by (simpl; lia).
    rewrite (IH (S k) fuel _z'); [| lia | lia | assumption |].
    + destruct w; unfold log, setBuf; simpl. now rewrite <- !app_assoc.
    + destruct Hw as (_ & HA & HX). repeat split; assumption.
Qed.

Lemma gemvKernel_run (b : nat) (w : World) :
  b < batchSize -> holds Y0 w ->
  gemvKernel VecLenAx VecLenY tempBytes b BufY BufA BufX BufZ alpha beta m n op w
  = (log (evBlock b) (setBuf BufY (Yafter b m) w), Ok tt).
Proof.
  intros Hb Hw. unfold gemvKernel, bind. rewrite (@load_x_reads _ b Hb w Hw).
  rewrite <- (Yafter_start b) in Hw.
  rewrite (@rowSweep_run b (m / VecLenY) Hb 0).
  - unfold evBlock. rewrite log_setBuf, log_log. reflexivity.
  - reflexivity.
  - pose proof rows_exact as Hm. destruct (Nat.eq_dec VecLenY 0) as [E|E].
    + rewrite E. simpl. lia.
    + revert Hm. generalize (m / VecLenY). intros q Hq. nia.
  - intros _. apply nth_repeat_lt. lia.
  - now apply holds_stable.
Qed.

(** A block rewrites its own [m] elements of [y] and nothing else. *)
Lemma block_length (b : nat) : b < batchSize -> length (Yafter b m) = length Y0.
Proof. intros Hb. apply Yafter_length; [assumption | nia]. Qed.

Lemma block_inside (b r : nat) :
  b < batchSize -> r < m -> nth (b * m + r) (Yafter b m) szero = outVal b r.
Proof.
  intros Hb Hr. unfold Yafter.
  assert (Hl : length (firstn (b * m) Y0) = b * m) by (rewrite length_firstn; nia).
  rewrite app_nth2 by lia. rewrite Hl.
  replace (b * m + r - b * m) with r by lia.
  rewrite app_nth1 by (rewrite length_map, length_seq; lia).
  now apply nth_map_seq.
Qed.

Lemma block_outside (b k : nat) :
  b < batchSize -> k < b * m \/ b * m + m <= k ->
  nth k (Yafter b m) szero = nth k Y0 szero.
Proof.
  intros Hb Hk. unfold Yafter.
  assert (Hl : length (firstn (b * m) Y0) = b * m) by (rewrite length_firstn; nia).
  destruct Hk as [Hk|Hk].
  - rewrite app_nth1 by lia. rewrite nth_firstn.
    destruct (Nat.ltb_spec k (b * m)); [reflexivity | lia].
  - rewrite app_nth2 by lia. rewrite app_nth2 by (rewrite length_map, length_seq; lia).
    rewrite Hl, length_map, length_seq, nth_skipn. f_equal. lia.
Qed.

End Block.

(** *** The grid *)

(** [y] after the blocks of [order] have run one after the other. *)
Definition runBlocks (order : list nat) (Y : list DataT) : list DataT :=
  fold_left (fun Y' b => Yafter Y' b m) order Y.

Definition slotAfter (cnt : nat) (w : World) : option DataT :=
  match cnt with 0 => wSlot w | S _ => None end.

Lemma runBlocks_length (order : list nat) :
  Forall (fun b => b < batchSize) order ->
  forall Y, batchSize * m <= length Y -> length (runBlocks order Y) = length Y.
Proof.
  induction 1 as [|b order Hb _ IH]; intros Y HY; simpl; [reflexivity|].
  rewrite IH; rewrite block_length; auto.
Qed.

Lemma blocks_run (order : list nat) :
  Forall (fun b => b < batchSize) order ->
  forall (Y : list DataT) (w : World),
    batchSize * m <= length Y -> holds Y w ->
    mapM (fun blk =>
            enterBlock ;;;
            gemvKernel VecLenAx VecLenY tempBytes blk BufY BufA BufX BufZ alpha beta m n op)
         order w
    = (log (flat_map evBlock order)
         (setBuf BufY (runBlocks order Y) (setSlot (slotAfter (length order) w) w)),
       Ok (map (fun _ => tt) order)).
Proof.
  induction 1 as [|b order Hb _ IH]; intros Y w HY Hw.
  - simpl. unfold ret. rewrite log_nil.
    destruct Hw as (E & _). rewrite <- E. now destruct w.
  - simpl mapM. unfold bind at 1. unfold bind at 1. unfold enterBlock at 1.
    rewrite (@gemvKernel_run Y HY b); [| assumption | exact Hw].
    unfold bind. rewrite (IH (Yafter Y b m)).
    + unfold ret. simpl.
      destruct w, order; unfold log, setBuf, setSlot; simpl; now rewrite <- ?app_assoc.
    + now rewrite block_length.
    + destruct Hw as (_ & HA & HX). now repeat split.
Qed.

(** The whole launch, in closed form. *)
Lemma gemvImplY_run (w : World) :
  Forall (fun b => b < batchSize) (blockOrder batchSize) ->
  batchSize * m <= length (wY w) -> wA w = A0 -> wX w = X0 ->
  gemvImplY VecLenAx VecLenY BufY BufA BufX BufZ alpha beta m n batchSize op w
  = (log evGrid
       (setBuf BufY (runBlocks (blockOrder batchSize) (wY w))
          (setSlot (slotAfter (length (blockOrder batchSize)) w) w)),
     Ok tt).
Proof.
  intros Ho HY HA HX. unfold gemvImplY, bind, emit.
  rewrite (@blocks_run _ Ho (wY w)); [| exact HY | now repeat split].
  unfold ret, evGrid. destruct w; unfold log, setBuf, setSlot; simpl.
  now rewrite <- app_assoc.
Qed.

(** *** Reading the final buffer *)

Lemma slices_apart (b b0 r : nat) :
  b <> b0 -> r < m -> b * m + r < b0 * m \/ b0 * m + m <= b * m + r.
Proof. intros Hne Hr. destruct (Nat.lt_ge_cases b b0); [left | right]; nia. Qed.

Lemma runBlocks_outside (order : list nat) :
  Forall (fun b => b < batchSize) order ->
  forall Y k, batchSize * m <= length Y ->
    (forall b, In b order -> k < b * m \/ b * m + m <= k) ->
    nth k (runBlocks order Y) szero = nth k Y szero.
Proof.
  induction 1 as [|b0 order Hb _ IH]; intros Y k HY Hk; simpl; [reflexivity|].
  rewrite IH.
  - apply block_outside; [assumption | assumption | apply Hk; now left].
  - now rewrite block_length.
  - intros b Hin. apply Hk. now right.
Qed.

(** Whatever the order, a block that runs once leaves in its elements of [y]
    the values computed from the content [y] had at the launch. *)
Lemma runBlocks_inside (order : list nat) :
  NoDup order -> Forall (fun b => b < batchSize) order ->
  forall Y b r, batchSize * m <= length Y -> In b order -> r < m ->
    nth (b * m + r) (runBlocks order Y) szero = outVal Y b r.
Proof.
  induction 1 as [|b0 order Hnin Hnd IH]; intros Hall Y b r HY Hin Hr; [destruct Hin|].
  inversion Hall as [|? ? Hb0 Hall']; subst. simpl.
  destruct (Nat.eq_dec b b0) as [->|Hne].
  - rewrite runBlocks_outside; [| assumption | now rewrite block_length |].
    + now apply block_inside.
    + intros b Hb. apply slices_apart; [|assumption]. intros ->. contradiction.
  - destruct Hin as [->|Hin]; [contradiction|].
    rewrite IH; [| assumption | now rewrite block_length | assumption | assumption].
    unfold outVal, betaOperand.
    rewrite block_outside; [reflexivity | assumption | assumption |].
    now apply slices_apart.
Qed.

(** *** The reduced value is the row times the vector *)

Section RowDot.

Context {LAWS : @ScalarLaws DataT SC}.
(** A row fits into the lanes of one block. *)
Hypothesis row_fits : n <= TPB * VecLenAx.

Lemma cols_exact : n = n / VecLenAx * VecLenAx.
Proof.
  destruct VecLenAx_divides as [q Hq]. destruct (Nat.eq_dec VecLenAx 0) as [E|E].
  - rewrite Hq, E. simpl. lia.
  - rewrite Hq at 1. now rewrite Hq, Nat.div_mul.
Qed.

Lemma laneVal_inside (b r tid : nat) :
  tid < n / VecLenAx ->
  dotProduct_val VecLenAx (aChunk b r tid) (xChunk b tid) n tid
  = fold_right sadd szero
      (map (fun i => smul (nth (b * m * n + r * n + (tid * VecLenAx + i)) A0 szero)
                          (nth (b * n + (tid * VecLenAx + i)) X0 szero))
           (seq 0 VecLenAx)).
Proof.
  intros Ht. pose proof cols_exact as Hn.
  assert (Hlt : tid * VecLenAx < n).
  { destruct (Nat.eq_dec VecLenAx 0) as [E|E].
    - rewrite E in Ht. simpl in Ht. lia.
    - revert Hn Ht. generalize (n / VecLenAx). intros q Hn Ht. nia. }
  unfold dotProduct_val, aChunk, xChunk.
  destruct (Nat.ltb_spec (tid * VecLenAx) n); [|lia].
  assert (Htid : tid < n).
  { destruct (Nat.eq_dec VecLenAx 0) as [E|E]; [rewrite E in Hlt; lia | nia]. }
  destruct (Nat.ltb_spec tid n); [|lia].
  rewrite (accumulate_sum (fun i => smul _ _)), sadd_0_l.
  f_equal. apply map_ext_in. intros i Hi. apply in_seq in Hi.
  rewrite !nth_chunk by lia. now rewrite !Nat.add_assoc.
Qed.

Lemma laneVal_outside (b r tid : nat) :
  n / VecLenAx <= tid ->
  dotProduct_val VecLenAx (aChunk b r tid) (xChunk b tid) n tid = szero.
Proof.
  intros Ht. pose proof cols_exact as Hn.
  assert (Hge : n <= tid * VecLenAx).
  { revert Hn Ht. generalize (n / VecLenAx). intros q Hn Ht. nia. }
  unfold dotProduct_val, aChunk, xChunk.
  destruct (Nat.ltb_spec (tid * VecLenAx) n); [lia|].
  destruct (tid <? n); [|reflexivity].
  rewrite (accumulate_sum (fun i => smul _ _)), sadd_0_l.
  apply sum_zero. intros a Ha. apply in_map_iff in Ha. destruct Ha as (i & <- & _).
  unfold TxN_fill. rewrite !nth_repeat. apply smul_0_0.
Qed.

Lemma rowDot_rowTimesX (b r : nat) : rowDot b r = rowTimesX b r.
Proof.
  pose proof cols_exact as Hn.
  assert (Hq : n / VecLenAx <= TPB).
  { destruct (Nat.eq_dec VecLenAx 0) as [E|E].
    - rewrite E. simpl. lia.
    - revert Hn. generalize (n / VecLenAx). intros q Hn. nia. }
  unfold rowDot, laneVals, rowTimesX.
  replace TPB with (n / VecLenAx + (TPB - n / VecLenAx)) by lia.
  rewrite seq_app, map_app, sum_app. simpl.
  rewrite (sum_zero (map _ (seq (n / VecLenAx) _))).
  - rewrite sadd_0_r.
    replace (seq 0 n) with (seq 0 (n / VecLenAx * VecLenAx)) by (now rewrite <- Hn).
    rewrite <- sum_chunks.
    f_equal. apply map_ext_in. intros tid Ht. apply in_seq in Ht.
    apply laneVal_inside. lia.
  - intros a Ha. apply in_map_iff in Ha. destruct Ha as (tid & <- & Ht).
    apply in_seq in Ht. apply laneVal_outside. lia.
Qed.

End RowDot.

(** *** The trace of a launch *)

Lemma written_app (p : Buf) (t1 t2 : list Event) :
  written p (t1 ++ t2) = written p t1 ++ written p t2.
Proof. apply flat_map_app. Qed.

Lemma written_flat_map {R : Type} (p : Buf) (f : R -> list Event) (l : list R) :
  written p (flat_map f l) = flat_map (fun a => written p (f a)) l.
Proof.
  induction l as [|a l IH]; simpl; [reflexivity|]. now rewrite written_app, IH.
Qed.

Lemma written_evLoadX (p : Buf) (b : nat) : written p (evLoadX b) = [].
Proof.
  unfold evLoadX. rewrite written_flat_map.
  rewrite <- (flat_map_nil (S := nat) (seq 0 TPB)). apply flat_map_ext.
  intros tid. now destruct (tid * VecLenAx <? n).
Qed.

Lemma written_evReduce (p : Buf) (b i : nat) : written p (evReduce b i) = [].
Proof.
  unfold evReduce. rewrite written_flat_map.
  rewrite <- (flat_map_nil (S := nat) (seq 0 VecLenY)). apply flat_map_ext.
  intros j. rewrite !written_app. unfold evLoadA, evDot. rewrite !written_flat_map.
  rewrite (flat_map_ext _ (fun _ => []));
    [| intros tid; now destruct (tid * VecLenAx <? n)].
  change (fun a : nat => written p [EvShRead b a 0 tempBytes]) with (fun _ : nat => @nil nat).
  now rewrite !flat_map_nil.
Qed.

Lemma written_evWrite (p : Buf) (b i : nat) :
  written p (evWrite b i) = if Buf_eqb p BufY then seq (b * m + i) VecLenY else [].
Proof.
  unfold evWrite. rewrite written_app. destruct (sneq beta szero); simpl;
    now rewrite app_nil_r.
Qed.

Lemma seq_chunks (s L q : nat) :
  flat_map (fun k => seq (s + k * L) L) (seq 0 q) = seq s (q * L).
Proof.
  induction q as [|q IH]; [reflexivity|].
  rewrite seq_S, flat_map_app, IH. simpl. rewrite app_nil_r.
  replace (L + q * L) with (q * L + L) by lia. now rewrite seq_app.
Qed.

Lemma written_evBlock (p : Buf) (b : nat) :
  written p (evBlock b) = if Buf_eqb p BufY then seq (b * m) m else [].
Proof.
  unfold evBlock. rewrite written_app, written_evLoadX, written_flat_map. simpl.
  rewrite (flat_map_ext _ (fun k => if Buf_eqb p BufY then seq (b * m + k * VecLenY) VecLenY else []));
    [| intros k; now rewrite written_app, written_evReduce, written_evWrite].
  destruct (Buf_eqb p BufY).
  - rewrite seq_chunks. now rewrite <- rows_exact.
  - apply flat_map_nil.
Qed.

(** The launch stores to [y] the [m] elements of each block that runs, block
    after block, and to no other buffer. *)
Lemma written_evGrid (p : Buf) :
  written p evGrid
  = if Buf_eqb p BufY then flat_map (fun b => seq (b * m) m) (blockOrder batchSize) else [].
Proof.
  unfold evGrid. change (written p (?e :: ?t)) with (written p t).
  rewrite written_flat_map.
  rewrite (flat_map_ext _ (fun b => if Buf_eqb p BufY then seq (b * m) m else []));
    [| intros b; now rewrite written_evBlock].
  destruct (Buf_eqb p BufY); [reflexivity | apply flat_map_nil].
Qed.

(** When every block runs once these are the elements [0 .. batchSize*m),
    each once. *)
Lemma written_rows_permutation (order : list nat) :
  Permutation order (seq 0 batchSize) ->
  Permutation (flat_map (fun b => seq (b * m) m) order) (seq 0 (batchSize * m)).
Proof.
  intros H. rewrite <- (seq_chunks 0 m batchSize).
  now apply Permutation_flat_map.
Qed.

Lemma slice_evBlock (b : nat) : Forall (slice_event m n) (evBlock b).
Proof.
  pose proof rows_exact as Hm. unfold evBlock.
  apply Forall_app. split.
  - unfold evLoadX. apply Forall_flat_map, Forall_forall. intros tid _.
    destruct (Nat.ltb_spec (tid * VecLenAx) n) as [Hlt|]; [|constructor].
    pose proof (chunk_fits tid Hlt). repeat constructor; simpl; lia.
  - apply Forall_flat_map, Forall_forall. intros k Hk. apply in_seq in Hk.
    assert (Hrow : k * VecLenY + VecLenY <= m) by (rewrite Hm; nia).
    apply Forall_app. split.
    + unfold evReduce. apply Forall_flat_map, Forall_forall. intros j Hj. apply in_seq in Hj.
      repeat (apply Forall_app; split).
      * unfold evLoadA. apply Forall_flat_map, Forall_forall. intros tid _.
        destruct (Nat.ltb_spec (tid * VecLenAx) n) as [Hlt|]; [|constructor].
        pose proof (chunk_fits tid Hlt). repeat constructor. simpl.
        exists (k * VecLenY + j). repeat split; lia.
      * unfold evDot. apply Forall_flat_map, Forall_forall. intros tid _.
        now repeat constructor.
      * now repeat constructor.
    + unfold evWrite. destruct (sneq beta szero); repeat constructor; simpl; lia.
Qed.

Lemma slice_evGrid : Forall (slice_event m n) (flat_map evBlock (blockOrder batchSize)).
Proof.
  apply Forall_flat_map, Forall_forall. intros b _. apply slice_evBlock.
Qed.

End Exec.

(** ** The public entry point *)

(** Every block of the grid runs once. *)
Definition each_block_once (batchSize : nat) : Prop :=
  Permutation (blockOrder batchSize) (seq 0 batchSize).

Lemma once_bound (g : nat) : each_block_once g -> Forall (fun b => b < g) (blockOrder g).
Proof.
  intros H. apply Forall_forall. intros b Hb.
  apply (Permutation_in _ H), in_seq in Hb. lia.
Qed.

Lemma once_NoDup (g : nat) : each_block_once g -> NoDup (blockOrder g).
Proof. intros H. apply (Permutation_NoDup (Permutation_sym H)), seq_NoDup. Qed.

Lemma once_In (g b : nat) : each_block_once g -> b < g -> In b (blockOrder g).
Proof. intros H Hb. apply (Permutation_in _ (Permutation_sym H)), in_seq. lia. Qed.

(** A launch of the kernel on buffers of the documented sizes: no fault, and
    in every output element the value computed from the content of [y] at
    the launch, in whatever order the blocks run. *)
Lemma gemvImplY_output (VecLenAx VecLenY : nat) (alpha beta : DataT) (m n batchSize : nat)
    (op : DataT -> nat -> DataT) (w : World) :
  Nat.divide VecLenAx n -> Nat.divide VecLenY m -> 1 <= TPB -> each_block_once batchSize ->
  batchSize * m * n <= length (wA w) -> batchSize * n <= length (wX w) ->
  batchSize * m <= length (wY w) ->
  gemvImplY VecLenAx VecLenY BufY BufA BufX BufZ alpha beta m n batchSize op w
  = (log (evGrid VecLenAx VecLenY beta m n batchSize)
       (setBuf BufY
          (runBlocks VecLenAx alpha beta m n op (wA w) (wX w) (blockOrder batchSize) (wY w))
          (setSlot (slotAfter (length (blockOrder batchSize)) w) w)),
     Ok tt)
  /\ length (runBlocks VecLenAx alpha beta m n op (wA w) (wX w) (blockOrder batchSize) (wY w))
     = length (wY w)
  /\ (forall b r, b < batchSize -> r < m ->
        nth (b * m + r)
            (runBlocks VecLenAx alpha beta m n op (wA w) (wX w) (blockOrder batchSize) (wY w))
            szero
        = outVal VecLenAx alpha beta m n op (wA w) (wX w) (wY w) b r).
Proof.
  intros DAx DY HT Ho HA HX HY. split; [|split].
  - apply gemvImplY_run; auto using once_bound.
  - apply runBlocks_length with (batchSize := batchSize); auto using once_bound.
  - intros b r Hb Hr.
    apply runBlocks_inside with (batchSize := batchSize);
      auto using once_bound, once_NoDup, once_In.
Qed.

Lemma gemv_output (alpha beta : DataT) (m n batchSize : nat) (op : DataT -> nat -> DataT)
    (w : World) :
  1 <= sizeofT -> sizeofT <> 3 -> sizeofT <> 5 -> 1 <= TPB -> each_block_once batchSize ->
  batchSize * m * n <= length (wA w) -> batchSize * n <= length (wX w) ->
  batchSize * m <= length (wY w) ->
  gemv BufY BufA BufX BufZ alpha beta m n batchSize op w
  = (log (evGrid (selectVecLen sizeofT n) (selectVecLen sizeofT m) beta m n batchSize)
       (setBuf BufY
          (runBlocks (selectVecLen sizeofT n) alpha beta m n op (wA w) (wX w)
             (blockOrder batchSize) (wY w))
          (setSlot (slotAfter (length (blockOrder batchSize)) w) w)),
     Ok tt)
  /\ length (runBlocks (selectVecLen sizeofT n) alpha beta m n op (wA w) (wX w)
               (blockOrder batchSize) (wY w))
     = length (wY w)
  /\ (forall b r, b < batchSize -> r < m ->
        nth (b * m + r)
            (runBlocks (selectVecLen sizeofT n) alpha beta m n op (wA w) (wX w)
               (blockOrder batchSize) (wY w))
            szero
        = outVal (selectVecLen sizeofT n) alpha beta m n op (wA w) (wX w) (wY w) b r).
Proof.
  intros H1 H3 H5 HT Ho HA HX HY. rewrite gemv_select.
  apply gemvImplY_output; try assumption; now apply selectVecLen_divides.
Qed.

Lemma grid_event_not_z (batchSize : nat) (e : Event) :
  grid_event batchSize BufY BufA BufX e -> touches BufZ e = false.
Proof.
  intros (blk & _ & H). destruct e; simpl in *; try reflexivity.
  - destruct H as (_ & [-> | [-> | [-> _]]]); reflexivity.
  - destruct H as (_ & -> & _); reflexivity.
Qed.

Lemma In_evGrid_load_y (VecLenAx VecLenY : nat) (beta : DataT) (m n batchSize b k : nat) :
  sneq beta szero = true -> In b (blockOrder batchSize) -> k < m / VecLenY ->
  In (EvLoad b 0 BufY (b * m + k * VecLenY) VecLenY)
     (evGrid VecLenAx VecLenY beta m n batchSize).
Proof.
  intros Hbeta Hb Hk. unfold evGrid. right. apply in_flat_map.
  exists b. split; [assumption|].
  unfold evBlock. apply in_or_app. right. apply in_flat_map.
  exists k. split; [apply in_seq; lia|].
  apply in_or_app. right. unfold evWrite. rewrite Hbeta. now left.
Qed.



(** *** Width selection *)

Ltac mod_facts :=
  repeat match goal with
         | H : context [?a mod ?b] |- _ =>
             lazymatch goal with
             | _ : a = b * (a / b) + a mod b |- _ => fail
             | _ => pose proof (Nat.div_mod_eq a b); pose proof (Nat.mod_upper_bound a b)
             end
         end.

(** For the accessor's element sizes the guard on the element count never
    decides: the choice is the largest byte width that divides the byte
    count. *)
Lemma guarded_VecLen_spec (s d : nat) :
  accessor_size s -> guarded_VecLen s d = spec_VecLen s d.
Proof.
  intros H. unfold accessor_size in H. simpl in H.
  unfold guarded_VecLen, spec_VecLen, byteWidths. cbn [find].
  destruct H as [<-|[<-|[<-|[<-|[<-|[]]]]]];
    repeat match goal with
           | |- context [?a / ?b] =>
               let v := eval vm_compute in (a / b) in change (a / b) with v
           end;
    simpl negb; cbv beta iota; rewrite ?andb_true_l, ?andb_false_l;
    repeat match goal with
           | |- context [?a mod ?b =? 0] => destruct (Nat.eqb_spec (a mod b) 0)
           end;
    try reflexivity; exfalso; mod_facts; lia.
Qed.

Lemma grid_event_not_launch (batchSize : nat) (y A x : Buf) (e : Event) :
  grid_event batchSize y A x e -> is_launch e = false.
Proof. intros (blk & _ & H). destruct e; simpl in *; tauto. Qed.


(** *** The reducer *)



(** With broadcast the reducer needs the extra slot: on a shared array of
    the temporary storage alone it faults. *)
Lemma dotProduct_true_needs_slot (VecLen blk : nat) (x y : list (list DataT))
    (len : nat) (w : World) :
  1 <= TPB -> 1 <= sizeofT ->
  snd (dotProduct VecLen blk x y len tempBytes true w) = Err OobShared.
Proof.
  intros HT Hs. unfold dotProduct.
  assert (R1 : reads (fun _ => True)
                 (forLanes (fun tid => shRead blk tid 0 tempBytes tempBytes))
                 (flat_map (fun tid => [EvShRead blk tid 0 tempBytes]) (seq 0 TPB))
                 (map (fun _ => tt) (seq 0 TPB))).
  { apply reads_mapM; [now intros ? ? ?|]. intros tid _. unfold shRead.
    destruct (Nat.leb_spec (0 + tempBytes) tempBytes); [apply reads_emit | lia]. }
  unfold bind at 1. rewrite (R1 w I). unfold bind at 1.
  unfold forLanes at 1. rewrite (seq_lane0 HT). cbn [mapM Nat.eqb].
  unfold bind at 1. unfold sDot_write.
  destruct (Nat.leb_spec (tempBytes + sizeofT) tempBytes); [lia | reflexivity].
Qed.

Lemma grid_event_within_temp (batchSize : nat) (y A x : Buf) (e : Event) :
  grid_event batchSize y A x e -> within_temp e.
Proof. intros (blk & _ & H). destruct e; simpl in *; tauto. Qed.

(** C9: [gemv] launches the kernel with a dynamic shared array of exactly
    the reducer's temporary storage; no run of the kernel writes shared
    memory or reads it outside that storage, so none ends in a shared-memory
    fault; and the reducer without broadcast, on any array that holds the
    temporary storage, reads that storage and nothing else. *)
Theorem gemv_shared_scratch_suffices (alpha beta : DataT) (m n batchSize : nat)
    (op : DataT -> nat -> DataT) (w : World) :
  let run := gemv BufY BufA BufX BufZ alpha beta m n batchSize op w in
  (exists evs,
      wTrace (fst run)
      = wTrace w
        ++ EvLaunch (selectVecLen sizeofT n) (selectVecLen sizeofT m) batchSize TPB tempBytes
        :: evs
      /\ Forall within_temp evs)
  /\ snd run <> Err OobShared /\ snd run <> Err UninitShared /\ snd run <> Err OutOfFuel
  /\ (forall VecLen blk x y len smemSize w',
        tempBytes <= smemSize ->
        exists dots,
          dotProduct VecLen blk x y len smemSize false w'
          = (log (flat_map (fun tid => [EvShRead blk tid 0 tempBytes]) (seq 0 TPB)) w', Ok dots)).
Proof.
  intros run. unfold run. rewrite gemv_select.
  destruct (@gemvImplY_trace global_fault (selectVecLen sizeofT n) (selectVecLen sizeofT m)
              BufY BufA BufX BufZ alpha beta m n batchSize op w)
    as (evs & T & F & E).
  { now left. } { now right. } { right. apply selectVecLen_pos. }
  split; [|split; [|split; [|split]]].
  - exists evs. split; [exact T|].
    eapply Forall_impl; [|exact F]. intros e. apply grid_event_within_temp.
  - intros H. destruct (E _ H); discriminate.
  - intros H. destruct (E _ H); discriminate.
  - intros H. destruct (E _ H); discriminate.
  - intros VecLen blk x y len smemSize w' Hs. eexists.
    apply (@dotProduct_false_reads (fun _ => True)); [now intros ? ? ? | assumption | exact I].
Qed.

(** *** Writes and rows *)

Lemma count_occ_seq (k len : nat) : k < len -> count_occ Nat.eq_dec (seq 0 len) k = 1.
Proof.
  intros H. apply (proj1 (NoDup_count_occ' Nat.eq_dec (seq 0 len))).
  - apply seq_NoDup.
  - apply in_seq. lia.
Qed.

Lemma store_in_slice (m n batchSize : nat) (e : Event) :
  each_block_once batchSize ->
  grid_event batchSize BufY BufA BufX e -> slice_event m n e ->
  lane0_store_in_slice m batchSize e.
Proof.
  intros Ho (blk & Hb & G) S. destruct e; simpl in *; try exact I.
  destruct G as (-> & _).
  apply (Permutation_in _ Ho), in_seq in Hb. tauto.
Qed.

(** The events of a call of [gemv] after the launch, with what the trace
    invariant and the closed form say about them. *)
Lemma gemv_events (alpha beta : DataT) (m n batchSize : nat) (op : DataT -> nat -> DataT)
    (w : World) :
  1 <= sizeofT -> sizeofT <> 3 -> sizeofT <> 5 -> 1 <= TPB -> each_block_once batchSize ->
  batchSize * m * n <= length (wA w) -> batchSize * n <= length (wX w) ->
  batchSize * m <= length (wY w) ->
  exists evs,
    wTrace (fst (gemv BufY BufA BufX BufZ alpha beta m n batchSize op w))
    = wTrace w
      ++ EvLaunch (selectVecLen sizeofT n) (selectVecLen sizeofT m) batchSize TPB tempBytes
      :: evs
    /\ Forall (grid_event batchSize BufY BufA BufX) evs
    /\ Forall (slice_event m n) evs
    /\ Permutation (written BufY evs) (seq 0 (batchSize * m))
    /\ written BufA evs = [] /\ written BufX evs = [] /\ written BufZ evs = [].
Proof.
  intros H1 H3 H5 HT Ho HA HX HY.
  pose proof (selectVecLen_divides n H1 H3 H5) as Dn.
  pose proof (selectVecLen_divides m H1 H3 H5) as Dm.
  destruct (@gemvImplY_trace (fun _ => True) (selectVecLen sizeofT n) (selectVecLen sizeofT m)
              BufY BufA BufX BufZ alpha beta m n batchSize op w I I (or_introl I))
    as (evs & T & F & _).
  rewrite <- gemv_select in T.
  exists evs. split; [exact T|]. split; [exact F|].
  assert (E : evs = flat_map (evBlock (selectVecLen sizeofT n) (selectVecLen sizeofT m) beta m n)
                      (blockOrder batchSize)).
  { destruct (@gemv_output alpha beta m n batchSize op w H1 H3 H5 HT Ho HA HX HY) as (R & _).
    rewrite R in T. simpl in T.
    apply app_inv_head in T. unfold evGrid in T. now inversion T. }
  pose proof (@written_evGrid (selectVecLen sizeofT n) (selectVecLen sizeofT m) beta m n
                batchSize (wA w) (wX w) Dm HT HA HX) as W.
  unfold evGrid in W. rewrite <- E in W.
  change (forall p, written p evs
            = if Buf_eqb p BufY
              then flat_map (fun b => seq (b * m) m) (blockOrder batchSize) else []) in W.
  rewrite E at 1. split; [|split; [|repeat split]].
  - now apply (@slice_evGrid _ _ beta m n batchSize (wA w) (wX w)).
  - rewrite (W BufY). simpl.
    now apply (@written_rows_permutation m n batchSize (wA w) (wX w)).
  - exact (W BufA).
  - exact (W BufX).
  - exact (W BufZ).
Qed.



(** ** The output buffer as a whole *)

Section Whole.

Variable VecLenAx : nat.
Variables alpha beta : DataT.
Variables m n batchSize : nat.
Variable op : DataT -> nat -> DataT.
Variables A0 X0 : list DataT.

(** [y] after a launch in which every block ran once: the [batchSize * m]
    outputs, each computed from the content at the launch, then what [y]
    held behind them. *)
Definition Yfinal (Y : list DataT) : list DataT :=
  map (fun k => outVal VecLenAx alpha beta m n op A0 X0 Y (k / m) (k mod m))
      (seq 0 (batchSize * m))
  ++ skipn (batchSize * m) Y.

Lemma Yfinal_length (Y : list DataT) :
  batchSize * m <= length Y -> length (Yfinal Y) = length Y.
Proof.
  intros H. unfold Yfinal. rewrite length_app, length_map, length_seq, length_skipn. lia.
Qed.

Lemma Yfinal_inside (Y : list DataT) (b r : nat) :
  b < batchSize -> r < m ->
  nth (b * m + r) (Yfinal Y) szero = outVal VecLenAx alpha beta m n op A0 X0 Y b r.
Proof.
  intros Hb Hr. unfold Yfinal.
  assert (Hk : b * m + r < batchSize * m) by nia.
  rewrite app_nth1 by now rewrite length_map, length_seq.
  rewrite nth_map_seq by assumption.
  rewrite Nat.div_add_l, Nat.div_small, Nat.add_0_r by lia.
  now rewrite Nat.add_comm, Nat.Div0.mod_add, Nat.mod_small.
Qed.

Lemma Yfinal_rest (Y : list DataT) :
  skipn (batchSize * m) (Yfinal Y) = skipn (batchSize * m) Y.
Proof.
  unfold Yfinal. rewrite skipn_app, length_map, length_seq, Nat.sub_diag.
  now rewrite skipn_all2 by now rewrite length_map, length_seq.
Qed.

Lemma runBlocks_Yfinal (order : list nat) (Y : list DataT) :
  1 <= TPB -> batchSize * m * n <= length A0 -> batchSize * n <= length X0 ->
  Permutation order (seq 0 batchSize) -> batchSize * m <= length Y ->
  runBlocks VecLenAx alpha beta m n op A0 X0 order Y = Yfinal Y.
Proof.
  intros HT HA HX Ho HY.
  assert (Hb : Forall (fun b => b < batchSize) order).
  { apply Forall_forall. intros b Hb. apply (Permutation_in _ Ho), in_seq in Hb. lia. }
  assert (Hnd : NoDup order) by apply (Permutation_NoDup (Permutation_sym Ho)), seq_NoDup.
  assert (Hl : length (runBlocks VecLenAx alpha beta m n op A0 X0 order Y) = length Y)
    by now apply runBlocks_length with (batchSize := batchSize).
  apply nth_ext with (d := szero) (d' := szero).
  - now rewrite Hl, Yfinal_length.
  - rewrite Hl. intros k Hk.
    destruct (Nat.lt_ge_cases k (batchSize * m)) as [Hin|Hout].
    + assert (Hm : m <> 0) by nia.
      assert (Hq : k / m < batchSize) by (apply Nat.Div0.div_lt_upper_bound; lia).
      assert (Hr : k mod m < m) by now apply Nat.mod_upper_bound.
      assert (E : k = k / m * m + k mod m) by (rewrite (Nat.div_mod_eq k m) at 1; lia).
      rewrite E at 1 2.
      rewrite Yfinal_inside by assumption.
      apply runBlocks_inside with (batchSize := batchSize); try assumption.
      apply (Permutation_in _ (Permutation_sym Ho)), in_seq. lia.
    + rewrite runBlocks_outside with (batchSize := batchSize); try assumption.
      * unfold Yfinal. rewrite app_nth2 by (rewrite length_map, length_seq; lia).
        rewrite length_map, length_seq, nth_skipn. f_equal. lia.
      * intros b Hin. rewrite Forall_forall in Hb. specialize (Hb b Hin). right. nia.
Qed.

End Whole.

(** A call of [gemv] on buffers of the documented sizes, in closed form. *)
Lemma gemv_final (alpha beta : DataT) (m n batchSize : nat) (op : DataT -> nat -> DataT)
    (w : World) :
  1 <= sizeofT -> sizeofT <> 3 -> sizeofT <> 5 -> 1 <= TPB -> each_block_once batchSize ->
  batchSize * m * n <= length (wA w) -> batchSize * n <= length (wX w) ->
  batchSize * m <= length (wY w) ->
  gemv BufY BufA BufX BufZ alpha beta m n batchSize op w
  = (log (evGrid (selectVecLen sizeofT n) (selectVecLen sizeofT m) beta m n batchSize)
       (setBuf BufY
          (Yfinal (selectVecLen sizeofT n) alpha beta m n batchSize op (wA w) (wX w) (wY w))
          (setSlot (slotAfter (length (blockOrder batchSize)) w) w)),
     Ok tt).
Proof.
  intros H1 H3 H5 HT Ho HA HX HY.
  destruct (@gemv_output alpha beta m n batchSize op w H1 H3 H5 HT Ho HA HX HY) as (R & _).
  rewrite R. now rewrite runBlocks_Yfinal with (batchSize := batchSize).
Qed.

Lemma gemvImplY_final (VecLenAx VecLenY : nat) (alpha beta : DataT) (m n batchSize : nat)
    (op : DataT -> nat -> DataT) (w : World) :
  Nat.divide VecLenAx n -> Nat.divide VecLenY m -> 1 <= TPB -> each_block_once batchSize ->
  batchSize * m * n <= length (wA w) -> batchSize * n <= length (wX w) ->
  batchSize * m <= length (wY w) ->
  gemvImplY VecLenAx VecLenY BufY BufA BufX BufZ alpha beta m n batchSize op w
  = (log (evGrid VecLenAx VecLenY beta m n batchSize)
       (setBuf BufY (Yfinal VecLenAx alpha beta m n batchSize op (wA w) (wX w) (wY w))
          (setSlot (slotAfter (length (blockOrder batchSize)) w) w)),
     Ok tt).
Proof.
  intros DAx DY HT Ho HA HX HY.
  destruct (@gemvImplY_output VecLenAx VecLenY alpha beta m n batchSize op w
              DAx DY HT Ho HA HX HY) as (R & _).
  rewrite R. now rewrite runBlocks_Yfinal with (batchSize := batchSize).
Qed.


(** Without [beta] an output does not depend on what [y] held. *)
Lemma outVal_beta_zero (VecLenAx : nat) (alpha beta : DataT) (m n : nat)
    (op : DataT -> nat -> DataT) (A0 X0 Y Y' : list DataT) (b r : nat) :
  sneq beta szero = false ->
  outVal VecLenAx alpha beta m n op A0 X0 Y b r
  = outVal VecLenAx alpha beta m n op A0 X0 Y' b r.
Proof. intros H. unfold outVal, betaOperand. now rewrite H. Qed.



(** *** One item of the batch *)

Lemma chunk_of_slice {T : Type} (L o len s : nat) (l : list T) :
  o + L <= len ->
  firstn L (skipn o (firstn len (skipn s l))) = firstn L (skipn (s + o) l).
Proof.
  intros H. rewrite skipn_firstn_comm, firstn_firstn, skipn_skipn, Nat.min_l by lia.
  now rewrite (Nat.add_comm o s).
Qed.

Section Item.

Variable VecLenAx : nat.
Variables m n : nat.
Variables A0 X0 : list DataT.
Variable b : nat.
Hypothesis VecLenAx_divides : Nat.divide VecLenAx n.

(** Item [b] of the batch, taken out of [A] and [x]. *)
Let A1 : list DataT := firstn (m * n) (skipn (b * m * n) A0).
Let X1 : list DataT := firstn n (skipn (b * n) X0).

Lemma xChunk_item (tid : nat) : xChunk VecLenAx n X0 b tid = xChunk VecLenAx n X1 0 tid.
Proof.
  unfold xChunk. destruct (Nat.ltb_spec (tid * VecLenAx) n) as [Hlt|]; [|reflexivity].
  assert (tid * VecLenAx + VecLenAx <= n)
    by (destruct VecLenAx_divides as [q Hq]; assert (tid < q) by nia; nia).
  unfold X1. simpl (0 * n + _). now rewrite chunk_of_slice.
Qed.

Lemma aChunk_item (r tid : nat) :
  r < m -> aChunk VecLenAx m n A0 b r tid = aChunk VecLenAx m n A1 0 r tid.
Proof.
  intros Hr. unfold aChunk.
  destruct (Nat.ltb_spec (tid * VecLenAx) n) as [Hlt|]; [|reflexivity].
  assert (tid * VecLenAx + VecLenAx <= n)
    by (destruct VecLenAx_divides as [q Hq]; assert (tid < q) by nia; nia).
  unfold A1. simpl (0 * m * n + _).
  rewrite chunk_of_slice by nia. now rewrite Nat.add_assoc.
Qed.

Lemma rowDot_item (r : nat) :
  r < m -> rowDot VecLenAx m n A0 X0 b r = rowDot VecLenAx m n A1 X1 0 r.
Proof.
  intros Hr. unfold rowDot, laneVals. f_equal. apply map_ext. intros tid.
  now rewrite aChunk_item, xChunk_item.
Qed.

End Item.


(** *** Rows longer than the block *)

Section Reach.

Context {LAWS : @ScalarLaws DataT SC}.
Variable VecLenAx : nat.
Variables m n : nat.
Variables A0 X0 : list DataT.
Hypothesis VecLenAx_divides : Nat.divide VecLenAx n.

(** The first [cols] columns of row [r] of [A_b] times [x_b]. *)
Definition rowPrefixTimesX (cols b r : nat) : DataT :=
  fold_right sadd szero
    (map (fun c => smul (nth (b * m * n + r * n + c) A0 szero) (nth (b * n + c) X0 szero))
         (seq 0 cols)).

Lemma lane_in_reach (b r tid : nat) :
  1 <= VecLenAx -> tid * VecLenAx < n ->
  dotProduct_val VecLenAx (aChunk VecLenAx m n A0 b r tid) (xChunk VecLenAx n X0 b tid) n tid
  = fold_right sadd szero
      (map (fun i => smul (nth (b * m * n + r * n + (tid * VecLenAx + i)) A0 szero)
                          (nth (b * n + (tid * VecLenAx + i)) X0 szero))
           (seq 0 VecLenAx)).
Proof.
  intros HV Hlt. unfold dotProduct_val, aChunk, xChunk.
  destruct (Nat.ltb_spec (tid * VecLenAx) n); [|lia].
  destruct (Nat.ltb_spec tid n); [|nia].
  rewrite (accumulate_sum (fun i => smul _ _)), sadd_0_l.
  f_equal. apply map_ext_in. intros i Hi. apply in_seq in Hi.
  rewrite !nth_chunk by lia. now rewrite !Nat.add_assoc.
Qed.

Lemma lane_out_of_reach (b r tid : nat) :
  n <= tid * VecLenAx ->
  dotProduct_val VecLenAx (aChunk VecLenAx m n A0 b r tid) (xChunk VecLenAx n X0 b tid) n tid
  = szero.
Proof.
  intros Hge. unfold dotProduct_val, aChunk, xChunk.
  destruct (Nat.ltb_spec (tid * VecLenAx) n); [lia|].
  destruct (tid <? n); [|reflexivity].
  rewrite (accumulate_sum (fun i => smul _ _)), sadd_0_l.
  apply sum_zero. intros a Ha. apply in_map_iff in Ha. destruct Ha as (i & <- & _).
  unfold TxN_fill. rewrite !nth_repeat. apply smul_0_0.
Qed.

(** The lanes of a block reach the first [TPB * VecLenAx] columns of a row:
    what lane 0 receives is the product over those columns. *)
Lemma rowDot_reach (b r : nat) :
  rowDot VecLenAx m n A0 X0 b r = rowPrefixTimesX (Nat.min n (TPB * VecLenAx)) b r.
Proof.
  unfold rowDot, laneVals, rowPrefixTimesX.
  destruct VecLenAx_divides as [q Hq].
  destruct (Nat.eq_dec VecLenAx 0) as [E|E].
  - assert (Hn : n = 0) by (rewrite Hq, E; lia).
    replace (Nat.min n (TPB * VecLenAx)) with 0 by lia. simpl. apply sum_zero. intros a Ha.
    apply in_map_iff in Ha. destruct Ha as (tid & <- & _).
    apply lane_out_of_reach. lia.
  - set (k := Nat.min q TPB).
    replace (Nat.min n (TPB * VecLenAx)) with (k * VecLenAx)
      by (rewrite Hq; symmetry; apply Nat.mul_min_distr_r).
    replace TPB with (k + (TPB - k)) at 1 by lia.
    rewrite seq_app, map_app, sum_app. simpl.
    rewrite (sum_zero (map _ (seq k _))).
    + rewrite sadd_0_r, <- sum_chunks.
      f_equal. apply map_ext_in. intros tid Ht. apply in_seq in Ht.
      apply lane_in_reach; [lia|]. rewrite Hq. assert (tid < q) by lia. nia.
    + intros a Ha. apply in_map_iff in Ha. destruct Ha as (tid & <- & Ht).
      apply in_seq in Ht. apply lane_out_of_reach. rewrite Hq.
      assert (q <= tid) by lia. nia.
Qed.

End Reach.


(** ** Alignment of the vectorized accesses *)

Lemma sat_TxN_load_aligned (P : Event -> Prop) (Q : Fault -> Prop) (L blk tid : nat) (p : Buf)
    (off : nat) :
  Nat.divide L off -> P (EvLoad blk tid p off L) -> Q OobGlobal ->
  sat P Q (TxN_load L blk tid p off).
Proof.
  intros HD HP HO w. unfold TxN_load.
  apply Nat.Lcm0.mod_divide in HD. rewrite HD. simpl.
  destruct (off + L <=? length (getBuf p w)); simpl.
  - exists [EvLoad blk tid p off L]. repeat split; auto. discriminate.
  - exists []. rewrite app_nil_r. repeat split; auto. intros f E. now inversion E; subst.
Qed.

Lemma sat_TxN_store_aligned (P : Event -> Prop) (Q : Fault -> Prop) (L blk tid : nat) (p : Buf)
    (off : nat) (v : list DataT) :
  Nat.divide L off -> P (EvStore blk tid p off L) -> Q OobGlobal ->
  sat P Q (TxN_store L blk tid p off v).
Proof.
  intros HD HP HO w. unfold TxN_store.
  apply Nat.Lcm0.mod_divide in HD. rewrite HD. simpl.
  destruct (off + L <=? length (getBuf p w)); simpl.
  - exists [EvStore blk tid p off L]. destruct p; simpl; repeat split; auto; discriminate.
  - exists []. rewrite app_nil_r. repeat split; auto. intros f E. now inversion E; subst.
Qed.

Section KernelAligned.

Variables VecLenAx VecLenY blk : nat.
Variables y A x z : Buf.
Variables alpha beta : DataT.
Variables m n : nat.
Variable op : DataT -> nat -> DataT.
Hypothesis VecLenAx_divides : Nat.divide VecLenAx n.
Hypothesis VecLenY_divides : Nat.divide VecLenY m.

Let P : Event -> Prop := fun _ => True.
Let Q : Fault -> Prop := fun f => f = OobGlobal.

Lemma aligned_load_x : sat P Q (load_x VecLenAx blk x n).
Proof.
  apply sat_mapM. intros tid _. apply sat_if; [|apply sat_ret].
  apply sat_TxN_load_aligned; [|exact I|reflexivity]. unfold idx.
  apply Nat.divide_add_r; [now apply Nat.divide_mul_r | apply Nat.divide_factor_r].
Qed.

Lemma aligned_load_a (i j : nat) : sat P Q (load_a VecLenAx blk A m n i j).
Proof.
  apply sat_mapM. intros tid _. apply sat_if; [|apply sat_ret].
  apply sat_TxN_load_aligned; [|exact I|reflexivity]. unfold idx, batchOffset.
  repeat apply Nat.divide_add_r; try (now apply Nat.divide_mul_r); apply Nat.divide_factor_r.
Qed.

Lemma aligned_reduce_rows (i : nat) (_x : list (list DataT)) :
  sat P Q (reduce_rows VecLenAx VecLenY tempBytes blk A m n i _x).
Proof.
  apply sat_mapM. intros j _.
  apply sat_bind; [apply aligned_load_a|]. intros _a.
  apply sat_bind.
  - apply sat_dotProduct_false; [intros; exact I | lia].
  - intros d. apply sat_bind; [apply sat_emit; exact I | intros; apply sat_ret].
Qed.

Lemma aligned_write_rows (i : nat) (_y _z : list (list DataT)) :
  Nat.divide VecLenY i -> sat P Q (write_rows VecLenY blk y alpha beta m op i _y _z).
Proof.
  intros Hi.
  assert (D : Nat.divide VecLenY (blk * m + i))
    by (apply Nat.divide_add_r; [now apply Nat.divide_mul_r | assumption]).
  apply sat_mapM. intros tid _.
  destruct (Nat.eqb_spec tid 0) as [->|]; [|apply sat_ret].
  apply sat_bind.
  - apply sat_if; [|apply sat_ret]. now apply sat_TxN_load_aligned.
  - intros _z0. apply sat_bind; [|intros; apply sat_ret].
    now apply sat_TxN_store_aligned.
Qed.

Lemma aligned_rowSweep (fuel i : nat) (_x _z : list (list DataT)) :
  Nat.divide VecLenY i -> m <= i + fuel * VecLenY ->
  sat P Q (rowSweep VecLenAx VecLenY tempBytes blk y A alpha beta m n op fuel i _x _z).
Proof.
  revert i _z. induction fuel as [|fuel IH]; intros i _z Hi Hf; simpl.
  - destruct (Nat.ltb_spec i m); [lia | apply sat_ret].
  - destruct (Nat.ltb_spec i m); [|apply sat_ret].
    apply sat_bind; [apply aligned_reduce_rows|]. intros _y.
    apply sat_bind; [now apply aligned_write_rows|]. intros _z'.
    apply IH; [|lia]. apply Nat.divide_add_r; [assumption | apply Nat.divide_refl].
Qed.

Lemma aligned_gemvKernel :
  sat P Q (gemvKernel VecLenAx VecLenY tempBytes blk y A x z alpha beta m n op).
Proof.
  unfold gemvKernel.
  apply sat_bind; [apply aligned_load_x|]. intros _x.
  apply aligned_rowSweep; [apply Nat.divide_0_r|].
  destruct VecLenY_divides as [q Hq]. destruct VecLenY; nia.
Qed.

End KernelAligned.

(** A launch with widths that divide the dimensions stops, if it stops, at
    an access outside a buffer. *)
Lemma gemvImplY_faults (VecLenAx VecLenY : nat) (y A x z : Buf) (alpha beta : DataT)
    (m n batchSize : nat) (op : DataT -> nat -> DataT) (w : World) :
  Nat.divide VecLenAx n -> Nat.divide VecLenY m ->
  snd (gemvImplY VecLenAx VecLenY y A x z alpha beta m n batchSize op w) = Ok tt
  \/ snd (gemvImplY VecLenAx VecLenY y A x z alpha beta m n batchSize op w) = Err OobGlobal.
Proof.
  intros DAx DY.
  assert (S : sat (fun _ => True) (fun f => f = OobGlobal)
                (gemvImplY VecLenAx VecLenY y A x z alpha beta m n batchSize op)).
  { unfold gemvImplY. apply sat_bind; [now apply sat_emit|]. intros _.
    apply sat_bind; [|intros; apply sat_ret].
    apply sat_mapM. intros blk _.
    apply sat_bind; [apply sat_enterBlock|]. intros _.
    now apply aligned_gemvKernel. }
  destruct (S w) as (evs & _ & _ & E).
  destruct (snd (gemvImplY VecLenAx VecLenY y A x z alpha beta m n batchSize op w))
    as [[]|f]; [now left | right]. now rewrite (E f).
Qed.


(** ** What no run changes *)

(** The computation leaves [A], [x] and [z] as they are and [y] at its
    length, whether it ends in a fault or not. *)
Definition keeps_inputs {R : Type} (c : M R) : Prop :=
  forall w,
    wA (fst (c w)) = wA w /\ wX (fst (c w)) = wX w /\ wZ (fst (c w)) = wZ w
    /\ length (wY (fst (c w))) = length (wY w).

Lemma keeps_ret {R : Type} (r : R) : keeps_inputs (ret r).
Proof. now intros w. Qed.

Lemma keeps_fault {R : Type} (f : Fault) : keeps_inputs (@fault R f).
Proof. now intros w. Qed.

Lemma keeps_emit (e : Event) : keeps_inputs (emit e).
Proof. now intros w. Qed.

Lemma keeps_bind {R S : Type} (c : M R) (k : R -> M S) :
  keeps_inputs c -> (forall r, keeps_inputs (k r)) -> keeps_inputs (bind c k).
Proof.
  intros Hc Hk w. unfold bind. specialize (Hc w).
  destruct (c w) as [w1 [r|f]]; simpl in *; [|assumption].
  destruct Hc as (EA & EX & EZ & EY), (Hk r w1) as (EA' & EX' & EZ' & EY').
  repeat split; congruence.
Qed.

Lemma keeps_mapM {T R : Type} (f : T -> M R) (l : list T) :
  (forall a, keeps_inputs (f a)) -> keeps_inputs (mapM f l).
Proof.
  intros H. induction l as [|a l IH]; simpl; [apply keeps_ret|].
  apply keeps_bind; [apply H|]. intros r.
  apply keeps_bind; [apply IH|]. intros rs. apply keeps_ret.
Qed.

Lemma keeps_TxN_load (L blk tid : nat) (p : Buf) (off : nat) :
  keeps_inputs (TxN_load L blk tid p off).
Proof.
  intros w. unfold TxN_load.
  destruct (negb (off mod L =? 0)); [|destruct (off + L <=? length (getBuf p w))]; now simpl.
Qed.

Lemma keeps_TxN_store (L blk tid off : nat) (v : list DataT) :
  L <= length v -> keeps_inputs (TxN_store L blk tid BufY off v).
Proof.
  intros Hv w. unfold TxN_store.
  destruct (negb (off mod L =? 0)); [now simpl|].
  destruct (Nat.leb_spec (off + L) (length (getBuf BufY w))) as [Hl|]; [|now simpl].
  simpl in *. repeat split; try reflexivity.
  rewrite !length_app, !length_firstn, length_skipn. lia.
Qed.

Lemma keeps_dotProduct (VecLen blk : nat) (x y : list (list DataT)) (len smemSize : nat)
    (broadcast : bool) :
  keeps_inputs (dotProduct VecLen blk x y len smemSize broadcast).
Proof.
  unfold dotProduct, forLanes.
  apply keeps_bind.
  { apply keeps_mapM. intros tid. unfold shRead.
    destruct (_ <=? _); [apply keeps_emit | apply keeps_fault]. }
  intros _. destruct broadcast; [|apply keeps_ret].
  apply keeps_bind.
  { apply keeps_mapM. intros tid. destruct (tid =? 0); [|apply keeps_ret].
    unfold sDot_write. destruct (_ <=? _); [now intros w | apply keeps_fault]. }
  intros _. apply keeps_bind; [apply keeps_emit|]. intros _.
  apply keeps_mapM. intros tid. unfold sDot_read.
  destruct (_ <=? _); [|apply keeps_fault].
  intros w. now destruct (wSlot w).
Qed.

Section KernelKeeps.

Variables VecLenAx VecLenY smemSize blk : nat.
Variables A x z : Buf.
Variables alpha beta : DataT.
Variables m n : nat.
Variable op : DataT -> nat -> DataT.

Lemma keeps_load_x : keeps_inputs (load_x VecLenAx blk x n).
Proof.
  apply keeps_mapM. intros tid.
  destruct (_ <? _); [apply keeps_TxN_load | apply keeps_ret].
Qed.

Lemma keeps_load_a (i j : nat) : keeps_inputs (load_a VecLenAx blk A m n i j).
Proof.
  apply keeps_mapM. intros tid.
  destruct (_ <? _); [apply keeps_TxN_load | apply keeps_ret].
Qed.

Lemma keeps_reduce_row (i : nat) (_x : list (list DataT)) (j : nat) :
  keeps_inputs (_a <- load_a VecLenAx blk A m n i j ;;
                d <- dotProduct VecLenAx blk _a _x n smemSize false ;;
                emit (EvBarrier blk) ;;;
                ret d).
Proof.
  apply keeps_bind; [apply keeps_load_a|]. intros _a.
  apply keeps_bind; [apply keeps_dotProduct|]. intros d.
  apply keeps_bind; [apply keeps_emit | intros; apply keeps_ret].
Qed.

Lemma keeps_reduce_rows (i : nat) (_x : list (list DataT)) :
  keeps_inputs (reduce_rows VecLenAx VecLenY smemSize blk A m n i _x).
Proof. apply keeps_mapM. intros j. apply keeps_reduce_row. Qed.

Lemma keeps_beta_load (i : nat) (_z0 : list DataT) :
  keeps_inputs (if sneq beta szero then TxN_load VecLenY blk 0 BufY (blk * m + i)
                else ret _z0).
Proof. destruct (sneq beta szero); [apply keeps_TxN_load | apply keeps_ret]. Qed.

Lemma keeps_write_lane (i : nat) (_y _z : list (list DataT)) (tid : nat) :
  keeps_inputs
    (if tid =? 0 then
       _z0 <- (if sneq beta szero then TxN_load VecLenY blk tid BufY (blk * m + i)
               else ret (nth tid _z [])) ;;
       let _y0 := map (fun j =>
          op (sadd (smul alpha (nth tid (nth j _y []) szero)) (smul beta (nth j _z0 szero)))
             (blk * m + i + j)) (seq 0 VecLenY) in
       TxN_store VecLenY blk tid BufY (blk * m + i) _y0 ;;;
       ret _z0
     else ret (nth tid _z [])).
Proof.
  destruct (Nat.eqb_spec tid 0) as [->|]; [|apply keeps_ret].
  apply keeps_bind; [apply keeps_beta_load|].
  intros _z0. apply keeps_bind; [|intros; apply keeps_ret].
  apply keeps_TxN_store. now rewrite length_map, length_seq.
Qed.

Lemma keeps_write_rows (i : nat) (_y _z : list (list DataT)) :
  keeps_inputs (write_rows VecLenY blk BufY alpha beta m op i _y _z).
Proof. apply keeps_mapM. intros tid. apply keeps_write_lane. Qed.

Lemma keeps_rowSweep (fuel i : nat) (_x _z : list (list DataT)) :
  keeps_inputs (rowSweep VecLenAx VecLenY smemSize blk BufY A alpha beta m n op fuel i _x _z).
Proof.
  revert i _z. induction fuel as [|fuel IH]; intros i _z; simpl.
  - destruct (i <? m); [apply keeps_fault | apply keeps_ret].
  - destruct (i <? m); [|apply keeps_ret].
    apply keeps_bind; [apply keeps_reduce_rows|]. intros _y.
    apply keeps_bind; [apply keeps_write_rows | intros; apply IH].
Qed.

#[using="All"]
Lemma keeps_gemvKernel :
  keeps_inputs (gemvKernel VecLenAx VecLenY smemSize blk BufY A x z alpha beta m n op).
Proof.
  unfold gemvKernel. apply keeps_bind; [apply keeps_load_x | intros; apply keeps_rowSweep].
Qed.

End KernelKeeps.

Lemma keeps_block (VecLenAx VecLenY smemSize blk : nat) (alpha beta : DataT) (m n : nat)
    (op : DataT -> nat -> DataT) :
  keeps_inputs (enterBlock ;;;
                gemvKernel VecLenAx VecLenY smemSize blk BufY BufA BufX BufZ alpha beta m n op).
Proof. apply keeps_bind; [now intros w|]. intros _. apply keeps_gemvKernel. Qed.


(** ** The shared array the reducer needs *)

Lemma shRead_short (blk off len smemSize : nat) {R : Type} (k : list unit -> M R) (w : World) :
  1 <= TPB -> smemSize < off + len ->
  snd (bind (forLanes (fun tid => shRead blk tid off len smemSize)) k w) = Err OobShared.
Proof.
  intros HT Hs. unfold forLanes. rewrite (seq_lane0 HT). cbn [mapM].
  unfold bind, shRead. destruct (Nat.leb_spec (off + len) smemSize); [lia | reflexivity].
Qed.

(** X8: the reducer ends without a fault, with one value for each lane,
    exactly when the dynamic shared array holds the temporary storage of the
    block reduction and, with broadcast, one more element behind it; on a
    smaller array it stops at a shared access outside the array. *)
Theorem dotProduct_shared_requirement (VecLen blk : nat) (x y : list (list DataT))
    (len smemSize : nat) (broadcast : bool) (w : World) :
  1 <= TPB ->
  let need := tempBytes + (if broadcast then sizeofT else 0) in
  (need <= smemSize ->
     exists dots, snd (dotProduct VecLen blk x y len smemSize broadcast w) = Ok dots
                  /\ length dots = TPB)
  /\ (smemSize < need ->
        snd (dotProduct VecLen blk x y len smemSize broadcast w) = Err OobShared).
Proof.
  intros HT need. unfold need. split; intros Hs.
  - destruct broadcast.
    + rewrite dotProduct_true_run by assumption. eexists. split; [reflexivity|].
      now rewrite length_map, length_seq.
    + rewrite (@dotProduct_false_reads (fun _ => True) VecLen blk x y len smemSize
                 (fun _ _ _ => I) ltac:(lia) w I).
      eexists. split; [reflexivity|]. unfold BlockReduceSum.
      now rewrite length_map, length_seq.
  - destruct (Nat.lt_ge_cases smemSize tempBytes) as [Hlt|Hge].
    + unfold dotProduct. apply shRead_short; [assumption | lia].
    + destruct broadcast; [|lia]. unfold dotProduct.
      assert (R1 : reads (fun _ => True)
                     (forLanes (fun tid => shRead blk tid 0 tempBytes smemSize))
                     (flat_map (fun tid => [EvShRead blk tid 0 tempBytes]) (seq 0 TPB))
                     (map (fun _ => tt) (seq 0 TPB))).
      { apply reads_mapM; [now intros ? ? ?|]. intros tid _. unfold shRead.
        destruct (Nat.leb_spec (0 + tempBytes) smemSize); [apply reads_emit | lia]. }
      unfold bind at 1. rewrite (R1 w I). unfold bind at 1.
      unfold forLanes at 1. rewrite (seq_lane0 HT). cbn [mapM Nat.eqb].
      unfold bind at 1. unfold sDot_write.
      destruct (Nat.leb_spec (tempBytes + sizeofT) smemSize); [lia | reflexivity].
Qed.

(** ** What a launch loads *)

(** The element indices of buffer [p] that the trace loads, in order. *)
Definition loaded (p : Buf) (tr : list Event) : list nat :=
  flat_map (fun e =>
    match e with
    | EvLoad _ _ q off len => if Buf_eqb p q then seq off len else []
    | _ => []
    end) tr.

Lemma loaded_app (p : Buf) (t1 t2 : list Event) :
  loaded p (t1 ++ t2) = loaded p t1 ++ loaded p t2.
Proof. apply flat_map_app. Qed.

Lemma loaded_flat_map {R : Type} (p : Buf) (f : R -> list Event) (l : list R) :
  loaded p (flat_map f l) = flat_map (fun a => loaded p (f a)) l.
Proof.
  induction l as [|a l IH]; simpl; [reflexivity|]. now rewrite loaded_app, IH.
Qed.

Lemma flat_map_ext_seq {R : Type} (f g : nat -> list R) (s len : nat) :
  (forall k, s <= k < s + len -> f k = g k) ->
  flat_map f (seq s len) = flat_map g (seq s len).
Proof.
  revert s. induction len as [|len IH]; intros s H; simpl; [reflexivity|].
  rewrite H by lia. f_equal. apply IH. intros k Hk. apply H. lia.
Qed.

(** [q] consecutive pieces of [L] indices are the next [q * L] indices. *)
Lemma seq_pieces (s L q : nat) :
  flat_map (fun k => seq (s + k * L) L) (seq 0 q) = seq s (q * L).
Proof.
  induction q as [|q IH]; [reflexivity|].
  rewrite seq_S, flat_map_app, IH. simpl. rewrite app_nil_r.
  replace (L + q * L) with (q * L + L) by lia. now rewrite seq_app.
Qed.

Section Loads.

Variables VecLenAx VecLenY : nat.
Variable beta : DataT.
Variables m n : nat.
Hypothesis VecLenAx_divides : Nat.divide VecLenAx n.
Hypothesis VecLenY_divides : Nat.divide VecLenY m.
Hypothesis row_fits : n <= TPB * VecLenAx.

(** The lanes with [idx < n] cover a row, chunk after chunk. *)
Lemma lanes_cover {R : Type} (f : nat -> list R) (g : nat -> list R) :
  (forall tid, tid * VecLenAx < n -> f tid = g tid) ->
  flat_map (fun tid => if tid * VecLenAx <? n then f tid else []) (seq 0 TPB)
  = flat_map g (seq 0 (n / VecLenAx)).
Proof.
  intros H. destruct VecLenAx_divides as [q Hq].
  destruct (Nat.eq_dec VecLenAx 0) as [E|E].
  - rewrite E. simpl. rewrite flat_map_ext_seq with (g := fun _ => []); [apply flat_map_nil|].
    intros tid _. destruct (Nat.ltb_spec (tid * 0) n); [lia | reflexivity].
  - assert (Hd : n / VecLenAx = q) by (rewrite Hq; now apply Nat.div_mul).
    rewrite Hd. assert (Hle : q <= TPB) by nia.
    replace TPB with (q + (TPB - q)) by lia.
    rewrite seq_app, flat_map_app. simpl.
    rewrite flat_map_ext_seq with (g := fun _ => []) (s := q);
      [rewrite flat_map_nil, app_nil_r|].
    + apply flat_map_ext_seq. intros tid Ht.
      assert (tid * VecLenAx < n) by (rewrite Hq; nia).
      destruct (Nat.ltb_spec (tid * VecLenAx) n); [now apply H | lia].
    + intros tid Ht. destruct (Nat.ltb_spec (tid * VecLenAx) n); [|reflexivity].
      rewrite Hq in *. nia.
Qed.

Lemma row_chunks (s : nat) :
  flat_map (fun tid => seq (s + tid * VecLenAx) VecLenAx) (seq 0 (n / VecLenAx)) = seq s n.
Proof.
  rewrite seq_pieces. f_equal. destruct VecLenAx_divides as [q Hq].
  destruct (Nat.eq_dec VecLenAx 0) as [E|E].
  - rewrite Hq, E. simpl. lia.
  - rewrite Hq at 1. now rewrite Nat.div_mul, <- Hq.
Qed.

Lemma loaded_evLoadX (p : Buf) (b : nat) :
  loaded p (evLoadX VecLenAx n b) = if Buf_eqb p BufX then seq (b * n) n else [].
Proof.
  unfold evLoadX. rewrite loaded_flat_map. destruct (Buf_eqb p BufX) eqn:E.
  - rewrite <- (row_chunks (b * n)). rewrite <- lanes_cover with
      (f := fun tid => seq (b * n + tid * VecLenAx) VecLenAx) by reflexivity.
    apply flat_map_ext. intros tid. destruct (tid * VecLenAx <? n); [|reflexivity].
    simpl. rewrite E. apply app_nil_r.
  - rewrite <- (flat_map_nil (S := nat) (seq 0 TPB)). apply flat_map_ext.
    intros tid. destruct (tid * VecLenAx <? n); [|reflexivity]. simpl. now rewrite E.
Qed.

Lemma loaded_evLoadA (p : Buf) (b r : nat) :
  loaded p (evLoadA VecLenAx m n b r)
  = if Buf_eqb p BufA then seq (b * m * n + r * n) n else [].
Proof.
  unfold evLoadA. rewrite loaded_flat_map. destruct (Buf_eqb p BufA) eqn:E.
  - rewrite <- (row_chunks (b * m * n + r * n)). rewrite <- lanes_cover with
      (f := fun tid => seq (b * m * n + r * n + tid * VecLenAx) VecLenAx) by reflexivity.
    apply flat_map_ext. intros tid. destruct (tid * VecLenAx <? n); [|reflexivity].
    simpl. rewrite E. apply app_nil_r.
  - rewrite <- (flat_map_nil (S := nat) (seq 0 TPB)). apply flat_map_ext.
    intros tid. destruct (tid * VecLenAx <? n); [|reflexivity]. simpl. now rewrite E.
Qed.

Lemma loaded_evDot (p : Buf) (b : nat) : loaded p (evDot b) = [].
Proof. unfold evDot. rewrite loaded_flat_map. apply flat_map_nil. Qed.

Lemma loaded_evReduce (p : Buf) (b i : nat) :
  loaded p (evReduce VecLenAx VecLenY m n b i)
  = if Buf_eqb p BufA then seq (b * m * n + i * n) (VecLenY * n) else [].
Proof.
  unfold evReduce. rewrite loaded_flat_map.
  rewrite (flat_map_ext _ (fun j => if Buf_eqb p BufA
                                    then seq (b * m * n + i * n + j * n) n else [])).
  - destruct (Buf_eqb p BufA); [apply seq_pieces | apply flat_map_nil].
  - intros j. rewrite !loaded_app, loaded_evLoadA, loaded_evDot. simpl.
    rewrite app_nil_r. destruct (Buf_eqb p BufA); [|reflexivity]. f_equal. lia.
Qed.

Lemma loaded_evWrite (p : Buf) (b i : nat) :
  loaded p (evWrite VecLenY beta m b i)
  = if Buf_eqb p BufY && sneq beta szero then seq (b * m + i) VecLenY else [].
Proof.
  unfold evWrite. destruct (sneq beta szero); simpl.
  - rewrite app_nil_r. now rewrite andb_true_r.
  - now rewrite andb_false_r.
Qed.

(** What block [b] loads of each buffer. *)
Definition blockLoads (p : Buf) (b : nat) : list nat :=
  match p with
  | BufA => seq (b * m * n) (m * n)
  | BufX => seq (b * n) n
  | BufY => if sneq beta szero then seq (b * m) m else []
  | BufZ => []
  end.

Lemma loaded_evBlock (p : Buf) (b : nat) :
  loaded p (evBlock VecLenAx VecLenY beta m n b) = blockLoads p b.
Proof.
  assert (Hm : m / VecLenY * VecLenY = m).
  { destruct VecLenY_divides as [q Hq]. destruct (Nat.eq_dec VecLenY 0) as [E|E].
    - rewrite Hq, E. simpl. lia.
    - rewrite Hq at 1. now rewrite Nat.div_mul, <- Hq. }
  unfold evBlock. rewrite loaded_app, loaded_evLoadX, loaded_flat_map.
  rewrite (flat_map_ext _ (fun k =>
             (if Buf_eqb p BufA then seq (b * m * n + k * (VecLenY * n)) (VecLenY * n) else [])
             ++ (if Buf_eqb p BufY && sneq beta szero
                 then seq (b * m + k * VecLenY) VecLenY else []))).
  2:{ intros k. rewrite loaded_app, loaded_evReduce, loaded_evWrite.
      destruct (Buf_eqb p BufA); [|reflexivity]. do 2 f_equal. lia. }
  destruct p; simpl.
  - destruct (sneq beta szero).
    + rewrite seq_pieces. now rewrite Hm.
    + apply flat_map_nil.
  - rewrite (flat_map_ext _ (fun k => seq (b * m * n + k * (VecLenY * n)) (VecLenY * n)))
      by (intros; apply app_nil_r).
    rewrite seq_pieces. f_equal. rewrite Nat.mul_assoc. now rewrite Hm.
  - rewrite flat_map_nil. apply app_nil_r.
  - apply flat_map_nil.
Qed.

Lemma loaded_blocks (p : Buf) (order : list nat) :
  loaded p (flat_map (evBlock VecLenAx VecLenY beta m n) order) = flat_map (blockLoads p) order.
Proof.
  rewrite loaded_flat_map. apply flat_map_ext. intros b. apply loaded_evBlock.
Qed.

Lemma blockLoads_all (batchSize : nat) (order : list nat) :
  Permutation order (seq 0 batchSize) ->
  Permutation (flat_map (blockLoads BufA) order) (seq 0 (batchSize * m * n))
  /\ Permutation (flat_map (blockLoads BufX) order) (seq 0 (batchSize * n))
  /\ flat_map (blockLoads BufZ) order = []
  /\ (sneq beta szero = true ->
      Permutation (flat_map (blockLoads BufY) order) (seq 0 (batchSize * m)))
  /\ (sneq beta szero = false -> flat_map (blockLoads BufY) order = []).
Proof.
  clear VecLenAx_divides VecLenY_divides row_fits.
  intros Ho. split; [|split; [|split; [|split]]].
  - rewrite (Permutation_flat_map _ Ho).
    rewrite (flat_map_ext _ (fun b => seq (0 + b * (m * n)) (m * n)))
      by (intros; simpl; f_equal; lia).
    rewrite seq_pieces. now rewrite Nat.mul_assoc.
  - rewrite (Permutation_flat_map _ Ho), <- (seq_pieces 0 n batchSize). reflexivity.
  - apply flat_map_nil.
  - intros Hb. rewrite (Permutation_flat_map _ Ho), <- (seq_pieces 0 m batchSize).
    unfold blockLoads. rewrite Hb. reflexivity.
  - intros Hb. unfold blockLoads. rewrite Hb. apply flat_map_nil.
Qed.

End Loads.


(** ** Empty rows *)

Lemma evGrid_no_columns (VecLenAx VecLenY : nat) (beta : DataT) (m batchSize : nat) :
  Forall (fun e => touches BufA e = false /\ touches BufX e = false)
         (evGrid VecLenAx VecLenY beta m 0 batchSize).
Proof.
  unfold evGrid. constructor; [now split|].
  apply Forall_flat_map, Forall_forall. intros b _. unfold evBlock.
  apply Forall_app. split.
  - unfold evLoadX. apply Forall_flat_map, Forall_forall. intros tid _.
    destruct (Nat.ltb_spec (tid * VecLenAx) 0); [lia | constructor].
  - apply Forall_flat_map, Forall_forall. intros k _. apply Forall_app. split.
    + unfold evReduce. apply Forall_flat_map, Forall_forall. intros j _.
      repeat (apply Forall_app; split).
      * unfold evLoadA. apply Forall_flat_map, Forall_forall. intros tid _.
        destruct (Nat.ltb_spec (tid * VecLenAx) 0); [lia | constructor].
      * unfold evDot. apply Forall_flat_map, Forall_forall. intros tid _.
        now repeat constructor.
      * now repeat constructor.
    + unfold evWrite. destruct (sneq beta szero); now repeat constructor.
Qed.


(** ** The buffers a run needs *)

(** A run of [c] that ends without a fault shows that buffer [p] holds at
    least [bound] elements. *)
Definition needs {R : Type} (c : M R) (p : Buf) (bound : nat) : Prop :=
  forall w r, snd (c w) = Ok r -> bound <= length (getBuf p w).

Lemma kept_length {R : Type} (c : M R) (p : Buf) (w : World) :
  keeps_inputs c -> length (getBuf p (fst (c w))) = length (getBuf p w).
Proof.
  intros H. destruct (H w) as (EA & EX & EZ & EY). destruct p; simpl; congruence.
Qed.

Lemma needs_TxN_load (L blk tid : nat) (p : Buf) (off : nat) :
  needs (TxN_load L blk tid p off) p (off + L).
Proof.
  intros w r. unfold TxN_load. destruct (negb _); [discriminate|].
  destruct (Nat.leb_spec (off + L) (length (getBuf p w))); [now intros _ | discriminate].
Qed.

Lemma needs_TxN_store (L blk tid : nat) (p : Buf) (off : nat) (v : list DataT) :
  needs (TxN_store L blk tid p off v) p (off + L).
Proof.
  intros w r. unfold TxN_store. destruct (negb _); [discriminate|].
  destruct (Nat.leb_spec (off + L) (length (getBuf p w))); [now intros _ | discriminate].
Qed.

Lemma needs_bind_l {R S : Type} (c : M R) (k : R -> M S) (p : Buf) (bound : nat) :
  needs c p bound -> needs (bind c k) p bound.
Proof.
  intros H w s. unfold bind. specialize (H w).
  destruct (c w) as [w1 [r|f]]; simpl in *; [|discriminate].
  intros _. now apply (H r).
Qed.

Lemma needs_bind_r {R S : Type} (c : M R) (k : R -> M S) (p : Buf) (bound : nat) :
  keeps_inputs c -> (forall r, needs (k r) p bound) -> needs (bind c k) p bound.
Proof.
  intros Hc Hk w s. unfold bind. pose proof (kept_length p w Hc) as L.
  destruct (c w) as [w1 [r|f]]; simpl in *; [|discriminate].
  intros E. rewrite <- L. now apply (Hk r w1 s).
Qed.

Lemma needs_mapM {T R : Type} (f : T -> M R) (l : list T) (a : T) (p : Buf) (bound : nat) :
  (forall a', keeps_inputs (f a')) -> In a l -> needs (f a) p bound ->
  needs (mapM f l) p bound.
Proof.
  intros Hk Hin Ha. induction l as [|a' l IH]; [destruct Hin|]. simpl.
  destruct Hin as [->|Hin].
  - now apply needs_bind_l.
  - apply needs_bind_r; [apply Hk|]. intros r. apply needs_bind_l. now apply IH.
Qed.

Section KernelNeeds.

Variables VecLenAx VecLenY smemSize blk : nat.
Variables alpha beta : DataT.
Variables m n : nat.
Variable op : DataT -> nat -> DataT.
Hypothesis lanes : 1 <= TPB.

Lemma needs_load_x (tid : nat) :
  tid < TPB -> tid * VecLenAx < n ->
  needs (load_x VecLenAx blk BufX n) BufX (blk * n + tid * VecLenAx + VecLenAx).
Proof.
  intros Ht Hlt. unfold load_x, forLanes. apply needs_mapM with (a := tid).
  - intros tid'. destruct (_ <? _); [apply keeps_TxN_load | apply keeps_ret].
  - apply in_seq. lia.
  - unfold idx. destruct (Nat.ltb_spec (tid * VecLenAx) n); [apply needs_TxN_load | lia].
Qed.

Lemma needs_load_a (i j tid : nat) :
  tid < TPB -> tid * VecLenAx < n ->
  needs (load_a VecLenAx blk BufA m n i j) BufA
        (blk * m * n + (i + j) * n + tid * VecLenAx + VecLenAx).
Proof.
  intros Ht Hlt. unfold load_a, forLanes. apply needs_mapM with (a := tid).
  - intros tid'. destruct (_ <? _); [apply keeps_TxN_load | apply keeps_ret].
  - apply in_seq. lia.
  - unfold idx, batchOffset.
    destruct (Nat.ltb_spec (tid * VecLenAx) n); [apply needs_TxN_load | lia].
Qed.

Lemma needs_reduce_rows (i j tid : nat) (_x : list (list DataT)) :
  j < VecLenY -> tid < TPB -> tid * VecLenAx < n ->
  needs (reduce_rows VecLenAx VecLenY smemSize blk BufA m n i _x) BufA
        (blk * m * n + (i + j) * n + tid * VecLenAx + VecLenAx).
Proof.
  intros Hj Ht Hlt. unfold reduce_rows. apply needs_mapM with (a := j).
  - intros j'. apply keeps_reduce_row.
  - apply in_seq. lia.
  - now apply needs_bind_l, needs_load_a.
Qed.

Lemma needs_write_rows (i : nat) (_y _z : list (list DataT)) :
  needs (write_rows VecLenY blk BufY alpha beta m op i _y _z) BufY (blk * m + i + VecLenY).
Proof.
  unfold write_rows, forLanes. apply needs_mapM with (a := 0).
  - intros tid. apply keeps_write_lane.
  - apply in_seq. lia.
  - cbn [Nat.eqb]. apply needs_bind_r; [apply keeps_beta_load|]. intros _z0.
    apply needs_bind_l, needs_TxN_store.
Qed.

(** The row loop reaches every row group below [m]. *)
Lemma needs_rowSweep_y (fuel i k : nat) (_x _z : list (list DataT)) :
  i + k * VecLenY < m ->
  needs (rowSweep VecLenAx VecLenY smemSize blk BufY BufA alpha beta m n op fuel i _x _z)
        BufY (blk * m + (i + k * VecLenY) + VecLenY).
Proof.
  revert i k _z. induction fuel as [|fuel IH]; intros i k _z Hk; simpl.
  - destruct (Nat.ltb_spec i m); [|lia]. intros w r. discriminate.
  - destruct (Nat.ltb_spec i m); [|lia].
    apply needs_bind_r; [apply keeps_reduce_rows|]. intros _y.
    destruct k as [|k].
    + apply needs_bind_l. simpl. rewrite Nat.add_0_r. apply needs_write_rows.
    + apply needs_bind_r; [apply keeps_write_rows|]. intros _z'.
      replace (i + S k * VecLenY) with (i + VecLenY + k * VecLenY) by lia.
      apply IH. lia.
Qed.

Lemma needs_rowSweep_a (fuel i k j tid : nat) (_x _z : list (list DataT)) :
  i + k * VecLenY < m -> j < VecLenY -> tid < TPB -> tid * VecLenAx < n ->
  needs (rowSweep VecLenAx VecLenY smemSize blk BufY BufA alpha beta m n op fuel i _x _z)
        BufA (blk * m * n + (i + k * VecLenY + j) * n + tid * VecLenAx + VecLenAx).
Proof.
  intros Hk Hj Ht Hlt. revert i k _z Hk.
  induction fuel as [|fuel IH]; intros i k _z Hk; simpl.
  - destruct (Nat.ltb_spec i m); [|lia]. intros w r. discriminate.
  - destruct (Nat.ltb_spec i m); [|lia].
    destruct k as [|k].
    + apply needs_bind_l. simpl. rewrite Nat.add_0_r. now apply needs_reduce_rows.
    + apply needs_bind_r; [apply keeps_reduce_rows|]. intros _y.
      apply needs_bind_r; [apply keeps_write_rows|]. intros _z'.
      replace (i + S k * VecLenY) with (i + VecLenY + k * VecLenY) by lia.
      apply IH. lia.
Qed.

End KernelNeeds.

(** What one block needs is needed by the launch in which it runs. *)
Lemma needs_gemvImplY (VecLenAx VecLenY : nat) (alpha beta : DataT) (m n batchSize : nat)
    (op : DataT -> nat -> DataT) (p : Buf) (bound b : nat) :
  In b (blockOrder batchSize) ->
  needs (gemvKernel VecLenAx VecLenY tempBytes b BufY BufA BufX BufZ alpha beta m n op)
        p bound ->
  needs (gemvImplY VecLenAx VecLenY BufY BufA BufX BufZ alpha beta m n batchSize op) p bound.
Proof.
  intros Hb Hk. unfold gemvImplY.
  apply needs_bind_r; [apply keeps_emit|]. intros _. apply needs_bind_l.
  apply needs_mapM with (a := b); [intros; apply keeps_block | assumption |].
  apply needs_bind_r; [now intros w|]. intros _. exact Hk.
Qed.

(** A launch that ends without a fault ran on buffers of the documented
    sizes. *)
Lemma gemvImplY_ok_sizes (VecLenAx VecLenY : nat) (alpha beta : DataT) (m n batchSize : nat)
    (op : DataT -> nat -> DataT) (w : World) :
  Nat.divide VecLenAx n -> Nat.divide VecLenY m -> 1 <= TPB -> each_block_once batchSize ->
  n <= TPB * VecLenAx ->
  snd (gemvImplY VecLenAx VecLenY BufY BufA BufX BufZ alpha beta m n batchSize op w) = Ok tt ->
  batchSize * m * n <= length (wA w) /\ batchSize * n <= length (wX w)
  /\ batchSize * m <= length (wY w).
Proof.
  intros [qn Hn] [qm Hm] HT Ho Hfit Hok. subst m n.
  assert (Hin : forall b, b < batchSize -> In b (blockOrder batchSize))
    by (intros; now apply once_In).
  split; [|split].
  - destruct batchSize as [|b]; [lia|]. destruct qm as [|km]; [lia|].
    destruct VecLenY as [|L]; [lia|]. destruct qn as [|kn]; [lia|].
    destruct VecLenAx as [|V]; [lia|].
    apply (@needs_gemvImplY (S V) (S L) alpha beta (S km * S L) (S kn * S V) (S b) op BufA
             _ b (Hin b ltac:(lia))) with (r := tt); [|exact Hok].
    unfold gemvKernel. apply needs_bind_r; [apply keeps_load_x|]. intros _x.
    replace (S b * (S km * S L) * (S kn * S V))
      with (b * (S km * S L) * (S kn * S V) + (0 + km * S L + L) * (S kn * S V)
            + kn * S V + S V) by lia.
    apply needs_rowSweep_a; try lia. nia.
  - destruct batchSize as [|b]; [lia|]. destruct qn as [|kn]; [lia|].
    destruct VecLenAx as [|V]; [lia|].
    apply (@needs_gemvImplY (S V) VecLenY alpha beta (qm * VecLenY) (S kn * S V) (S b) op BufX
             _ b (Hin b ltac:(lia))) with (r := tt); [|exact Hok].
    unfold gemvKernel. apply needs_bind_l.
    replace (S b * (S kn * S V)) with (b * (S kn * S V) + kn * S V + S V) by lia.
    apply needs_load_x; [assumption | | lia].
    apply (Nat.mul_le_mono_pos_r _ _ (S V)); [lia | exact Hfit].
  - destruct batchSize as [|b]; [lia|]. destruct qm as [|km]; [lia|].
    destruct VecLenY as [|L]; [lia|].
    apply (@needs_gemvImplY VecLenAx (S L) alpha beta (S km * S L) (qn * VecLenAx) (S b) op BufY
             _ b (Hin b ltac:(lia))) with (r := tt); [|exact Hok].
    unfold gemvKernel. apply needs_bind_r; [apply keeps_load_x|]. intros _x.
    replace (S b * (S km * S L)) with (b * (S km * S L) + (0 + km * S L) + S L) by lia.
    apply needs_rowSweep_y; lia.
Qed.


(** ** Barriers *)

(** The shared-memory accesses and the barriers of block [b] in a trace. *)
Definition syncView (b : nat) (tr : list Event) : list Event :=
  filter (fun e =>
    match e with
    | EvShRead b' _ _ _ | EvShWrite b' _ _ _ | EvBarrier b' => b' =? b
    | _ => false
    end) tr.

Lemma syncView_app (b : nat) (t1 t2 : list Event) :
  syncView b (t1 ++ t2) = syncView b t1 ++ syncView b t2.
Proof. apply filter_app. Qed.

Lemma syncView_flat_map {R : Type} (b : nat) (f : R -> list Event) (l : list R) :
  syncView b (flat_map f l) = flat_map (fun a => syncView b (f a)) l.
Proof.
  induction l as [|a l IH]; simpl; [reflexivity|]. now rewrite syncView_app, IH.
Qed.

Lemma rounds_seq {R : Type} (c : list R) (s k : nat) :
  flat_map (fun _ => c) (seq s k) = concat (repeat c k).
Proof.
  revert s. induction k as [|k IH]; intros s; simpl; [reflexivity|]. now rewrite IH.
Qed.

Lemma rounds_mul {R : Type} (c : list R) (L q : nat) :
  concat (repeat (concat (repeat c L)) q) = concat (repeat c (q * L)).
Proof.
  induction q as [|q IH]; simpl; [reflexivity|].
  now rewrite IH, repeat_app, concat_app.
Qed.

Lemma flat_map_single {R S : Type} (g : R -> S) (l : list R) :
  flat_map (fun a => [g a]) l = map g l.
Proof. induction l as [|a l IH]; simpl; [reflexivity | now rewrite IH]. Qed.

(** Of a list of blocks that holds [b] once, only [b] is left. *)
Lemma skip_blocks {R : Type} (c : list R) (b : nat) (order : list nat) :
  ~ In b order -> flat_map (fun b' => if b' =? b then c else []) order = [].
Proof.
  induction order as [|b0 order IH]; intros Hnin; simpl; [reflexivity|].
  destruct (Nat.eqb_spec b0 b) as [->|Hne].
  - exfalso. apply Hnin. now left.
  - apply IH. intros Hin. apply Hnin. now right.
Qed.

Lemma pick_block {R : Type} (c : list R) (b : nat) (order : list nat) :
  NoDup order -> In b order ->
  flat_map (fun b' => if b' =? b then c else []) order = c.
Proof.
  induction 1 as [|b0 order Hnin Hnd IH]; intros Hin; [destruct Hin|]. simpl.
  destruct (Nat.eqb_spec b0 b) as [->|Hne].
  - now rewrite skip_blocks, app_nil_r.
  - destruct Hin as [->|Hin]; [contradiction | now apply IH].
Qed.

Section Sync.

Variables VecLenAx VecLenY : nat.
Variable beta : DataT.
Variables m n : nat.
Hypothesis VecLenY_divides : Nat.divide VecLenY m.

(** One reduction of block [b]: every lane reads the temporary storage, then
    the block meets at the barrier. *)
Definition reduction (b : nat) : list Event :=
  map (fun tid => EvShRead b tid 0 tempBytes) (seq 0 TPB) ++ [EvBarrier b].

Lemma syncView_evLoadX (b b' : nat) : syncView b (evLoadX VecLenAx n b') = [].
Proof.
  unfold evLoadX. rewrite syncView_flat_map.
  rewrite (flat_map_ext _ (fun _ => [])); [apply flat_map_nil|].
  intros tid. now destruct (tid * VecLenAx <? n).
Qed.

Lemma syncView_evLoadA (b b' r : nat) : syncView b (evLoadA VecLenAx m n b' r) = [].
Proof.
  unfold evLoadA. rewrite syncView_flat_map.
  rewrite (flat_map_ext _ (fun _ => [])); [apply flat_map_nil|].
  intros tid. now destruct (tid * VecLenAx <? n).
Qed.

Lemma syncView_evDot (b b' : nat) :
  syncView b (evDot b' ++ [EvBarrier b']) = if b' =? b then reduction b else [].
Proof.
  unfold evDot, reduction. rewrite syncView_app, syncView_flat_map. simpl.
  destruct (Nat.eqb_spec b' b) as [->|Hne].
  - now rewrite (flat_map_single (fun tid => EvShRead b tid 0 tempBytes)).
  - now rewrite flat_map_nil.
Qed.

Lemma syncView_evWrite (b b' i : nat) : syncView b (evWrite VecLenY beta m b' i) = [].
Proof. unfold evWrite. now destruct (sneq beta szero). Qed.

Lemma syncView_evBlock (b b' : nat) :
  syncView b (evBlock VecLenAx VecLenY beta m n b')
  = if b' =? b then concat (repeat (reduction b) m) else [].
Proof.
  assert (Hm : m / VecLenY * VecLenY = m).
  { destruct VecLenY_divides as [q Hq]. destruct (Nat.eq_dec VecLenY 0) as [E|E].
    - rewrite Hq, E. simpl. lia.
    - rewrite Hq at 1. now rewrite Nat.div_mul, <- Hq. }
  unfold evBlock. rewrite syncView_app, syncView_evLoadX, syncView_flat_map. simpl.
  rewrite (flat_map_ext _ (fun _ => if b' =? b then concat (repeat (reduction b) VecLenY)
                                    else [])).
  - destruct (b' =? b); [|apply flat_map_nil].
    now rewrite rounds_seq, rounds_mul, Hm.
  - intros k. rewrite syncView_app, syncView_evWrite, app_nil_r.
    unfold evReduce. rewrite syncView_flat_map.
    rewrite (flat_map_ext _ (fun _ => if b' =? b then reduction b else [])).
    + destruct (b' =? b); [apply rounds_seq | apply flat_map_nil].
    + intros j. rewrite syncView_app, syncView_evLoadA. apply syncView_evDot.
Qed.

Lemma syncView_blocks (b : nat) (order : list nat) :
  NoDup order -> In b order ->
  syncView b (flat_map (evBlock VecLenAx VecLenY beta m n) order)
  = concat (repeat (reduction b) m).
Proof.
  intros Hnd Hin. rewrite syncView_flat_map.
  rewrite (flat_map_ext _ (fun b' => if b' =? b then concat (repeat (reduction b) m) else []))
    by (intros; apply syncView_evBlock).
  now apply pick_block.
Qed.

End Sync.


End Model.

(** ** Integer runs *)

Definition inOrder (g : nat) : list nat := seq 0 g.
Definition reversed (g : nat) : list nat := rev (seq 0 g).

Lemma inOrder_once (g : nat) : each_block_once inOrder g.
Proof. apply Permutation_refl. Qed.

Lemma reversed_once (g : nat) : each_block_once reversed g.
Proof. apply Permutation_sym, Permutation_rev. Qed.

(** C1: on one 1x1 system with [alpha = beta = 1], [A = [2]], [x = [3]],
    prior [y = [10]] and any [z], [gemv] ends with [y = [16]], that is
    [2 * 3 + 1 * 10]: the operand scaled by [beta] is the prior [y], where
    the documented update [alpha * A x + beta * z] gives [11] for
    [z = [5]]. *)
Theorem gemv_scales_prior_y (zbuf : list Z) :
  let run := gemv 32 4 44 (fun _ _ => 0%Z) inOrder BufY BufA BufX BufZ 1%Z 1%Z 1 1 1 (@Nop Z)
               (mkWorld [10%Z] [2%Z] [3%Z] zbuf None []) in
  snd run = Ok tt
  /\ wY (fst run) = [(1 * (2 * 3) + 1 * 10)%Z]
  /\ wY (fst run) <> [(1 * (2 * 3) + 1 * 5)%Z].
Proof. vm_compute. repeat split. discriminate. Qed.

Lemma selectVecLen_two (s : nat) : In s [1; 2; 4; 8] -> selectVecLen s 2 = 2.
Proof. simpl. intros [<-|[<-|[<-|[<-|[]]]]]; reflexivity. Qed.

Lemma list_of_nth1 {R : Type} (l : list R) (d v : R) :
  length l = 1 -> nth 0 l d = v -> l = [v].
Proof. destruct l as [|a [|b l]]; simpl; intros; try discriminate. now subst. Qed.

Lemma list_of_nth2 {R : Type} (l : list R) (d u v : R) :
  length l = 2 -> nth 0 l d = u -> nth 1 l d = v -> l = [u; v].
Proof. destruct l as [|a [|b [|c l]]]; simpl; intros; try discriminate. now subst. Qed.


(** A row that does not fit into the lanes of its block is cut short: with
    one lane and [VecLenAx = 1] only column 0 of a 1x3 system is
    multiplied.  The theorems on values ask for [n <= TPB * VecLenAx]. *)
Lemma row_beyond_the_block_is_dropped :
  wY (fst (gemv 1 4 44 (fun _ _ => 0%Z) inOrder BufY BufA BufX BufZ 1%Z 0%Z 1 3 1 (@Nop Z)
             (mkWorld [0%Z] [1; 1; 1]%Z [1; 1; 1]%Z [] None [])))
  = [1%Z].
Proof. reflexivity. Qed.

(** ** Instances of the theorems *)








Lemma gemv_shared_scratch_suffices_witness :
  exists dots,
    dotProduct 2 4 44 (fun _ _ => 0%Z) 2 0 [[1; 2]; [1; 1]]%Z [[3; 4]; [1; 1]]%Z 4 44 false
      (mkWorld [] [] [] [] None [])
    = (log [EvShRead 0 0 0 44; EvShRead 0 1 0 44] (mkWorld [] [] [] [] None []), Ok dots).
Proof.
  apply (@gemv_shared_scratch_suffices Z Scalar_Z 2 4 44 (fun _ _ => 0%Z) inOrder 1%Z 0%Z 1 1 1
           (@Nop Z) (mkWorld [0%Z] [2%Z] [3%Z] [] None [])).
  lia.
Defined.


(** ** Where the stated rules fail *)




(** ** Further properties of the dispatch and of the schedule *)

(** X12: for an element size the vectorized accessor has, the ladder selects
    a width whose vector the accessor has too: [VecLen * sizeof(T)] is one
    of 1, 2, 4, 8 and 16 bytes, whatever the dimension; for every element
    size up to 16 bytes a vector has at most 16 bytes, and a wider element
    is accessed one at a time. *)
Theorem selected_width_has_accessor (s d : nat) :
  (accessor_size s -> accessor_size (selectVecLen s d * s))
  /\ (1 <= s <= 16 -> selectVecLen s d * s <= 16)
  /\ (16 < s -> selectVecLen s d = 1).
Proof.
  rewrite selectVecLen_unwrapped. split; [|split].
  - unfold accessor_size. simpl. intros [<-|[<-|[<-|[<-|[<-|[]]]]]];
      repeat match goal with
             | |- context [?a / ?b] =>
                 let v := eval vm_compute in (a / b) in change (a / b) with v
             end;
      simpl negb; cbv beta iota; rewrite ?andb_true_l, ?andb_false_l;
      repeat match goal with
             | |- context [if ?c then _ else _] => destruct c
             end; simpl; auto 10.
  - intros Hs.
    assert (E : s = 1 \/ s = 2 \/ s = 3 \/ s = 4 \/ s = 5 \/ s = 6 \/ s = 7 \/ s = 8 \/ s = 9
                \/ s = 10 \/ s = 11 \/ s = 12 \/ s = 13 \/ s = 14 \/ s = 15 \/ s = 16) by lia.
    repeat (destruct E as [E|E]); subst s;
      repeat match goal with
             | |- context [?a / ?b] =>
                 let v := eval vm_compute in (a / b) in change (a / b) with v
             end;
      simpl negb; cbv beta iota; rewrite ?andb_true_l, ?andb_false_l;
      repeat match goal with
             | |- context [if ?c then _ else _] => destruct c
             end; lia.
  - intros Hs. now rewrite !Nat.div_small by lia.
Qed.

Section Schedules.

Context {DataT : Type} {SC : Scalar DataT}.
Variables TPB sizeofT tempBytes : nat.
Variables alpha beta : DataT.
Variables m n batchSize : nat.
Variable op : DataT -> nat -> DataT.
Variable w : @World DataT.

Hypothesis size_1 : 1 <= sizeofT.
Hypothesis size_3 : sizeofT <> 3.
Hypothesis size_5 : sizeofT <> 5.
Hypothesis lanes : 1 <= TPB.
Hypothesis A_size : batchSize * m * n <= length (wA w).
Hypothesis X_size : batchSize * n <= length (wX w).
Hypothesis Y_size : batchSize * m <= length (wY w).



End Schedules.

(** ** An integer identity *)

Lemma map_nth_seq {R : Type} (l : list R) (d : R) (k : nat) :
  k <= length l -> map (fun i => nth i l d) (seq 0 k) = firstn k l.
Proof.
  intros Hk. apply nth_ext with (d := d) (d' := d).
  - rewrite length_map, length_seq, length_firstn. lia.
  - rewrite length_map, length_seq. intros i Hi.
    rewrite nth_map_seq by assumption. rewrite nth_firstn.
    destruct (Nat.ltb_spec i k); [reflexivity | lia].
Qed.


(** ** Instances of the further properties *)

(** Two 2x2 systems, one element of [y] behind them, and lanes other than
    lane 0 that receive zero from the block reduction. *)
Definition twoItems : @World Z :=
  mkWorld [10; 20; 30; 40; 99]%Z [1; 2; 3; 4; 5; 6; 7; 8]%Z [1; 1; 1; 1]%Z [7%Z] None [].

Definition zeroLanes : nat -> list Z -> Z := fun _ _ => 0%Z.







Lemma dotProduct_shared_requirement_witness :
  (exists dots,
      snd (dotProduct 2 4 44 zeroLanes 2 0 [[1; 2]; [1; 1]]%Z [[3; 4]; [1; 1]]%Z 4 48 true
             twoItems) = Ok dots
      /\ length dots = 2)
  /\ snd (dotProduct 2 4 44 zeroLanes 2 0 [[1; 2]; [1; 1]]%Z [[3; 4]; [1; 1]]%Z 4 47 true
            twoItems) = Err OobShared
  /\ snd (dotProduct 2 4 44 zeroLanes 2 0 [[1; 2]; [1; 1]]%Z [[3; 4]; [1; 1]]%Z 4 43 false
            twoItems) = Err OobShared.
Proof.
  split; [|split].
  - apply (@dotProduct_shared_requirement Z Scalar_Z 2 4 44 zeroLanes 2 0
             [[1; 2]; [1; 1]]%Z [[3; 4]; [1; 1]]%Z 4 48 true twoItems); simpl; lia.
  - apply (@dotProduct_shared_requirement Z Scalar_Z 2 4 44 zeroLanes 2 0
             [[1; 2]; [1; 1]]%Z [[3; 4]; [1; 1]]%Z 4 47 true twoItems); simpl; lia.
  - apply (@dotProduct_shared_requirement Z Scalar_Z 2 4 44 zeroLanes 2 0
             [[1; 2]; [1; 1]]%Z [[3; 4]; [1; 1]]%Z 4 43 false twoItems); simpl; lia.
Defined.







